(** * NoviSign / MTA integration: the fetch - select - format - publish pipeline

    A shallow embedding of [server.js].

    Numbers are modelled as [Z]: every number the pipeline computes with is
    an integer (epoch seconds, minutes, slot indices, key counts), and for
    magnitudes below 2^53 the subtraction, the comparison and the rounded
    quotient that the source computes on doubles agree with the exact ones.
    Arrays are lists, [push] appends at the end, [forEach] is a left fold
    over the state the callback mutates, and an early [return] in a callback
    hands that state back unchanged.  Console output, requests sent, clock
    readings and thrown errors are threaded through a small state-and-error
    monad; what the network answers, what the feed decoder returns and what
    the clock reads are taken from an environment. *)

From stdpp Require Import gmap strings list pretty.
From Stdlib Require Import ZArith Lia Sorted Permutation.

Local Open Scope string_scope.
Local Open Scope Z_scope.

(** ** Configuration constants *)

Definition UPDATE_INTERVAL_MS : Z := 30000.
Definition MTA_FEED_URL : string :=
  "https://api-endpoint.mta.info/Dataservice/mtagtfsfeeds/nyct%2Fgtfs-bdfm".
Definition ROUTE_ID : string := "F".
Definition STOP_QUEENS : string := "D15N".
Definition STOP_BROOKLYN : string := "D15S".

(** ** JavaScript primitives used by the pipeline *)

(** [Math.round (n / d)] for a positive divisor: the nearest integer, a tie
    going towards plus infinity.  [Math.round (-0.4)] is [-0], which compares
    like [0]; the two zeros are one value here. *)
Definition Math_round_div (n d : Z) : Z := (2 * n + d) `div` (2 * d).

(** Template interpolation of an integer, [`${n}`]. *)
Definition template_Z (n : Z) : string := pretty n.
Definition template_nat (n : nat) : string := pretty n.

(** A string is falsy exactly when it is empty; [undefined] is falsy. *)
Definition truthy_string (s : option string) : bool :=
  match s with
  | Some s => negb (String.eqb s "")
  | None => false
  end.

(** ** Decoded feed (the shapes [FeedMessage.decode] hands back) *)

(** A 64-bit field decoded by protobufjs is a [Long] object holding two
    signed 32-bit words. *)
Record Long := { low : Z; high : Z }.

(** [arrival.time] is either a plain number or a wrapped 64-bit value. *)
Inductive TimeValue :=
| TNum (n : Z)
| TLong (l : Long).

(** The number a wrapped value denotes. *)
Definition Long_toNumber (l : Long) : Z := high l * 2 ^ 32 + low l `mod` 2 ^ 32.

(** Numeric coercion, as performed by the subtraction operator: a number is
    itself, an object is printed ([Long.prototype.toString], decimal) and the
    text read back as a number. *)
Definition ToNumber (t : TimeValue) : Z :=
  match t with
  | TNum n => n
  | TLong l => Long_toNumber l
  end.

(** Truthiness of [stu.arrival?.time]: an object is always truthy, a number
    is truthy unless it is zero, a missing field is falsy. *)
Definition truthy_time (t : option TimeValue) : bool :=
  match t with
  | Some (TNum n) => negb (n =? 0)
  | Some (TLong _) => true
  | None => false
  end.

Record StopTimeEvent := { time : option TimeValue }.
Record StopTimeUpdate := {
  arrival : option StopTimeEvent;
  stopId : option string
}.
Record TripDescriptor := { routeId : option string }.
Record TripUpdate := {
  trip : option TripDescriptor;
  stopTimeUpdate : option (list StopTimeUpdate)
}.
Record FeedEntity := { tripUpdate : option TripUpdate }.
Record FeedMessage := { entity : list FeedEntity }.

(** [stu.arrival?.time] *)
Definition arrival_time (stu : StopTimeUpdate) : option TimeValue :=
  match arrival stu with
  | Some a => time a
  | None => None
  end.

(** ** Arrival selector: the body of [fetchFTrainArrivals] after the decode *)

Record ArrivalItem := {
  minutesAway : string;
  arrivalTime : TimeValue
}.

Record Direction := { nextThreeTrains : list ArrivalItem }.
Record TrainData := {
  queensBound : Direction;
  brooklynBound : Direction
}.

(** The two arrays the callbacks push into. *)
Record Buckets := {
  queensArrivals : list ArrivalItem;
  brooklynArrivals : list ArrivalItem
}.

Definition no_arrivals : Buckets :=
  {| queensArrivals := []; brooklynArrivals := [] |}.

Definition push_queens (it : ArrivalItem) (bk : Buckets) : Buckets :=
  {| queensArrivals := queensArrivals bk ++ [it];
     brooklynArrivals := brooklynArrivals bk |}.

Definition push_brooklyn (it : ArrivalItem) (bk : Buckets) : Buckets :=
  {| queensArrivals := queensArrivals bk;
     brooklynArrivals := brooklynArrivals bk ++ [it] |}.

(** [stu.arrival.time.low || stu.arrival.time]: the low word of a wrapped
    value when that word is truthy, otherwise the value as it came (a plain
    number has no [low] property). *)
Definition arrival_epoch (t : TimeValue) : TimeValue :=
  match t with
  | TLong l => if low l =? 0 then TLong l else TNum (low l)
  | TNum n => TNum n
  end.

(** [Math.round((arrivalEpoch - now) / 60)] *)
Definition minutes_away (now : Z) (arrivalEpoch : TimeValue) : Z :=
  Math_round_div (ToNumber arrivalEpoch - now) 60.

Definition label (minutes : Z) : string :=
  if minutes <=? 0 then "Arriving" else template_Z minutes +:+ " min".

Definition make_item (now : Z) (arrivalEpoch : TimeValue) : ArrivalItem :=
  {| minutesAway := label (minutes_away now arrivalEpoch);
     arrivalTime := arrivalEpoch |}.

(** The two routing tests at the end of the inner callback; both are always
    evaluated. *)
Definition route_item (sid : string) (it : ArrivalItem) (bk : Buckets) : Buckets :=
  let bk1 := if String.eqb sid STOP_QUEENS then push_queens it bk else bk in
  if String.eqb sid STOP_BROOKLYN then push_brooklyn it bk1 else bk1.

(** The callback of the inner [forEach]. *)
Definition on_stop_time_update (now : Z) (bk : Buckets) (stu : StopTimeUpdate) : Buckets :=
  if negb (truthy_time (arrival_time stu)) || negb (truthy_string (stopId stu))
  then bk
  else
    match arrival_time stu, stopId stu with
    | Some t, Some sid =>
        let arrivalEpoch := arrival_epoch t in
        if minutes_away now arrivalEpoch <? 0 then bk
        else route_item sid (make_item now arrivalEpoch) bk
    | _, _ => bk
    end.

(** [entity.tripUpdate.trip.routeId !== ROUTE_ID] *)
Definition route_differs (tr : TripDescriptor) : bool :=
  match routeId tr with
  | Some r => negb (String.eqb r ROUTE_ID)
  | None => true
  end.

(** The callback of the outer [forEach]. *)
Definition on_entity (now : Z) (bk : Buckets) (e : FeedEntity) : Buckets :=
  match tripUpdate e with
  | None => bk
  | Some tu =>
      match trip tu with
      | None => bk
      | Some tr =>
          if route_differs tr then bk
          else
            match stopTimeUpdate tu with
            | None => bk
            | Some stus => fold_left (on_stop_time_update now) stus bk
            end
      end
  end.

Definition collect (now : Z) (entities : list FeedEntity) : Buckets :=
  fold_left (on_entity now) entities no_arrivals.

(** [Array.prototype.sort] with a comparator: a stable sort, an element [a]
    staying before [b] unless the comparator is positive on them. *)
Fixpoint sort_insert {A : Type} (cmp : A → A → Z) (x : A) (l : list A) : list A :=
  match l with
  | [] => [x]
  | y :: l' => if 0 <? cmp x y then y :: sort_insert cmp x l' else x :: y :: l'
  end.

Definition Array_sort {A : Type} (cmp : A → A → Z) (l : list A) : list A :=
  foldr (sort_insert cmp) [] l.

(** [(a, b) => a.arrivalTime - b.arrivalTime] *)
Definition by_arrivalTime (a b : ArrivalItem) : Z :=
  ToNumber (arrivalTime a) - ToNumber (arrivalTime b).

(** [arr.slice(0, 3)] *)
Definition slice_0_3 {A : Type} (l : list A) : list A := take 3%nat l.

Definition select_arrivals (now : Z) (entities : list FeedEntity) : TrainData :=
  let bk := collect now entities in
  let queensSorted := Array_sort by_arrivalTime (queensArrivals bk) in
  let brooklynSorted := Array_sort by_arrivalTime (brooklynArrivals bk) in
  {| queensBound := {| nextThreeTrains := slice_0_3 queensSorted |};
     brooklynBound := {| nextThreeTrains := slice_0_3 brooklynSorted |} |}.

(** ** JS objects used as records of items

    Property order is insertion order, and [Object.keys] and the log lines
    show it, so an object is kept as an association list without repeated
    keys; assigning to an existing key replaces its value in place. *)

Definition JsObject (V : Type) : Type := list (string * V).

Fixpoint obj_set {V : Type} (k : string) (v : V) (o : JsObject V) : JsObject V :=
  match o with
  | [] => [(k, v)]
  | (k', v') :: o' =>
      if String.eqb k' k then (k, v) :: o' else (k', v') :: obj_set k v o'
  end.

Fixpoint obj_get {V : Type} (k : string) (o : JsObject V) : option V :=
  match o with
  | [] => None
  | (k', v') :: o' => if String.eqb k' k then Some v' else obj_get k o'
  end.

Definition Object_keys {V : Type} (o : JsObject V) : list string := map fst o.

(** The same object seen as a finite map. *)
Definition as_map {V : Type} (o : JsObject V) : gmap string V := list_to_map o.

(** [keys.join(sep)] *)
Definition Array_join (sep : string) (l : list string) : string := String.concat sep l.

(** ** Effects: console, network, clock, exceptions *)

(** One catalog item, [{ minutesAway: ... }]. *)
Module Catalog.
Record item := { minutesAway : string }.
End Catalog.

(** A response body.  The remote bodies are opaque to the pipeline except for
    an optional [message] property, so an object is kept as its string-valued
    properties; the feed body is an array buffer. *)
Inductive Payload :=
| PUndefined
| PText (s : string)
| PObject (props : list (string * string))
| PBytes (bytes : list Byte.byte).

Module Response.
Record t := { status : Z; data : Payload }.
End Response.

(** A thrown value: an [Error], with the [response] property that axios adds
    when the remote end answered. *)
Module Err.
Record t := { message : string; response : option Response.t }.
End Err.

(** [new Error(msg)] *)
Definition new_Error (msg : string) : Err.t :=
  {| Err.message := msg; Err.response := None |}.

Record RequestBody := { data : JsObject Catalog.item }.

Inductive Request :=
| GET (url : string) (responseType : string) (timeout : Z)
| POST (url : string) (body : RequestBody)
       (headers : list (string * option string)) (timeout : Z).

Inductive LogArg :=
| LStr (s : string)
| LData (d : Payload).

Inductive ConsoleLine :=
| Stdout (args : list LogArg)
| Stderr (args : list LogArg).

(** What has happened so far: the console lines written, the requests sent
    and the number of clock readings taken, oldest first. *)
Record World := {
  console : list ConsoleLine;
  requests : list Request;
  clock_reads : nat
}.

Inductive AxiosOutcome :=
| Resolved (r : Response.t)
| Rejected (e : Err.t).

Inductive Result (A : Type) :=
| Ok (a : A)
| Throw (e : Err.t).
Arguments Ok {A} a.
Arguments Throw {A} e.

(** The environment the process runs in: what the network answers to the
    n-th request, what the feed decoder makes of a byte buffer, what the
    clock reads at the n-th reading (milliseconds), and the ISO-8601
    rendering of an instant. *)
Record Env := {
  network : nat → Request → AxiosOutcome;
  FeedMessage_decode : list Byte.byte → Result FeedMessage;
  clock_ms : nat → Z;
  toISOString : Z → string
}.

Record Config := {
  studioDomain : string;
  apiKey : option string;
  catalogItemsGroup : string
}.

(** A computation that may write to the world and may throw. *)
Definition M (A : Type) : Type := World → Result A * World.

Definition ret {A : Type} (a : A) : M A := fun w => (Ok a, w).

Definition bind {A B : Type} (m : M A) (k : A → M B) : M B :=
  fun w =>
    match m w with
    | (Ok a, w') => k a w'
    | (Throw e, w') => (Throw e, w')
    end.

Definition throw {A : Type} (e : Err.t) : M A := fun w => (Throw e, w).

(** [try { body } catch (error) { handler }] *)
Definition try_catch {A : Type} (body : M A) (handler : Err.t → M A) : M A :=
  fun w =>
    match body w with
    | (Ok a, w') => (Ok a, w')
    | (Throw e, w') => handler e w'
    end.

(** [promise.catch(handler)]: the value of the promise, or [undefined] once
    the handler has run. *)
Definition promise_catch {A : Type} (m : M A) (handler : Err.t → M unit) : M (option A) :=
  fun w =>
    match m w with
    | (Ok a, w') => (Ok (Some a), w')
    | (Throw e, w') =>
        match handler e w' with
        | (Ok _, w'') => (Ok None, w'')
        | (Throw e', w'') => (Throw e', w'')
        end
    end.

Notation "'let!' x ':=' m 'in' k" := (bind m (fun x => k))
  (at level 10, x name, m at level 100, k at level 200).

Definition write_line (l : ConsoleLine) : M unit :=
  fun w =>
    (Ok tt, {| console := console w ++ [l];
               requests := requests w;
               clock_reads := clock_reads w |}).

Definition console_log (args : list LogArg) : M unit := write_line (Stdout args).
Definition console_error (args : list LogArg) : M unit := write_line (Stderr args).

(** [array.forEach((x, index) => ...)] over a state the callback mutates. *)
Fixpoint forEach_from {A St : Type} (f : St → A → nat → M St)
    (l : list A) (index : nat) (s : St) : M St :=
  match l with
  | [] => ret s
  | x :: l' => let! s' := f s x index in forEach_from f l' (S index) s'
  end.

Definition forEach_indexed {A St : Type} (f : St → A → nat → M St) (l : list A) (s : St) : M St :=
  forEach_from f l 0%nat s.

(** [for (let i = start; i < stop; i++) ...] *)
Fixpoint for_steps {St : Type} (f : St → nat → M St) (i steps : nat) (s : St) : M St :=
  match steps with
  | O => ret s
  | S steps' => let! s' := f s i in for_steps f (S i) steps' s'
  end.

Definition for_range {St : Type} (f : St → nat → M St) (start stop : nat) (s : St) : M St :=
  for_steps f start (stop - start)%nat s.

Definition newline : string := String (Ascii.ascii_of_nat 10) "".

(** [s.repeat(n)] *)
Fixpoint String_repeat (s : string) (n : nat) : string :=
  match n with
  | O => ""
  | S n' => s +:+ String_repeat s n'
  end.

(** ** The pipeline *)

Record PublishResult := {
  success : bool;
  itemsUpdated : nat;
  timestamp : string;
  response : Payload
}.

(** [data?.message], when the body carries one. *)
Definition Payload_message (d : Payload) : option string :=
  match d with
  | PObject props => obj_get "message" props
  | _ => None
  end.

(** [new Uint8Array(response.data)]: the bytes of the buffer that axios
    delivers for [responseType: 'arraybuffer']; any other shape has no
    elements to copy. *)
Definition Uint8Array_of (d : Payload) : list Byte.byte :=
  match d with
  | PBytes bytes => bytes
  | _ => []
  end.

Section Pipeline.

Variable env : Env.
Variable NOVISIGN_CONFIG : Config.

(** [axios.get] / [axios.post]: the request goes out, and the promise
    settles with what the network answers to it. *)
Definition axios_request (req : Request) : M Response.t :=
  fun w =>
    let w' := {| console := console w;
                 requests := requests w ++ [req];
                 clock_reads := clock_reads w |} in
    match network env (length (requests w)) req with
    | Resolved r => (Ok r, w')
    | Rejected e => (Throw e, w')
    end.

(** [Date.now()] and [new Date()] *)
Definition Date_now : M Z :=
  fun w =>
    (Ok (clock_ms env (clock_reads w)),
     {| console := console w;
        requests := requests w;
        clock_reads := S (clock_reads w) |}).

Definition decode (bytes : list Byte.byte) : M FeedMessage :=
  fun w => (FeedMessage_decode env bytes, w).

Definition pushToNoviSign (dataItems : JsObject Catalog.item)
    (itemsGroup : option string) : M PublishResult :=
  let targetGroup :=
    if truthy_string itemsGroup then default "" itemsGroup
    else catalogItemsGroup NOVISIGN_CONFIG in
  let apiUrl :=
    "https://" +:+ studioDomain NOVISIGN_CONFIG +:+ "/catalog/items/" +:+ targetGroup in
  let! _ := console_log [LStr (newline +:+ "📡 NoviSign API Call:")] in
  let! _ := console_log [LStr ("   URL: " +:+ apiUrl)] in
  let headers :=
    [("Content-Type", Some "application/json");
     ("X-API-KEY", apiKey NOVISIGN_CONFIG)] in
  let requestBody := {| data := dataItems |} in
  let! _ := console_log
    [LStr ("Items to update: " +:+ template_nat (length (Object_keys dataItems)))] in
  let! _ := console_log
    [LStr ("Item IDs: " +:+ Array_join ", " (Object_keys dataItems))] in
  try_catch
    (let! response := axios_request (POST apiUrl requestBody headers 10000) in
     let! _ := console_log [LStr "✓ Success! Data pushed to NoviSign"] in
     let! instant := Date_now in
     ret {| success := true;
            itemsUpdated := length (Object_keys dataItems);
            timestamp := toISOString env instant;
            response := Response.data response |})
    (fun error =>
       let! _ := console_error
         [LStr "✗ NoviSign API Error:"; LStr (Err.message error)] in
       match Err.response error with
       | Some r =>
           let! _ := console_error
             [LStr ("Status: " +:+ template_Z (Response.status r))] in
           let! _ := console_error [LStr "Details:"; LData (Response.data r)] in
           let detail :=
             if truthy_string (Payload_message (Response.data r))
             then default "" (Payload_message (Response.data r))
             else Err.message error in
           throw (new_Error
             ("NoviSign API error (" +:+ template_Z (Response.status r) +:+ "): "
              +:+ detail))
       | None =>
           throw (new_Error ("Failed to push to NoviSign: " +:+ Err.message error))
       end).

Definition formatDataForNoviSign (trainData : TrainData) : M (JsObject Catalog.item) :=
  let items : JsObject Catalog.item := [] in
  let! _ := console_log [LStr (newline +:+ "📋 Formatting data for NoviSign:")] in
  let! items :=
    forEach_indexed
      (fun items train index =>
         let itemId := "queens_" +:+ template_nat (index + 1) in
         let items := obj_set itemId {| Catalog.minutesAway := minutesAway train |} items in
         let! _ := console_log [LStr ("✓ " +:+ itemId +:+ ": " +:+ minutesAway train)] in
         ret items)
      (nextThreeTrains (queensBound trainData)) items in
  let! items :=
    for_range
      (fun items i =>
         let itemId := "queens_" +:+ template_nat (i + 1) in
         let items := obj_set itemId {| Catalog.minutesAway := "--" |} items in
         let! _ := console_log [LStr ("✓ " +:+ itemId +:+ ": No train (placeholder)")] in
         ret items)
      (length (nextThreeTrains (queensBound trainData))) 3 items in
  let! items :=
    forEach_indexed
      (fun items train index =>
         let itemId := "brooklyn_" +:+ template_nat (index + 1) in
         let items := obj_set itemId {| Catalog.minutesAway := minutesAway train |} items in
         let! _ := console_log [LStr ("✓ " +:+ itemId +:+ ": " +:+ minutesAway train)] in
         ret items)
      (nextThreeTrains (brooklynBound trainData)) items in
  let! items :=
    for_range
      (fun items i =>
         let itemId := "brooklyn_" +:+ template_nat (i + 1) in
         let items := obj_set itemId {| Catalog.minutesAway := "--" |} items in
         let! _ := console_log [LStr ("✓ " +:+ itemId +:+ ": No train (placeholder)")] in
         ret items)
      (length (nextThreeTrains (brooklynBound trainData))) 3 items in
  ret items.

Definition fetchFTrainArrivals : M TrainData :=
  try_catch
    (let! response := axios_request (GET MTA_FEED_URL "arraybuffer" 10000) in
     let! feed := decode (Uint8Array_of (Response.data response)) in
     let! instant := Date_now in
     let now := instant `div` 1000 in
     ret (select_arrivals now (entity feed)))
    (fun error =>
       throw (new_Error ("Failed to fetch MTA data: " +:+ Err.message error))).

Definition fetchAndPushToNoviSign : M PublishResult :=
  try_catch
    (let! _ := console_log [LStr (newline +:+ "🔄 Starting NoviSign Update")] in
     let! _ := console_log [LStr (String_repeat "=" 60)] in
     let! _ := console_log
       [LStr (newline +:+ "1️⃣  Fetching train data from MTA API...")] in
     let! trainData := fetchFTrainArrivals in
     let! _ := console_log [LStr "✓ Data fetched successfully"] in
     let! _ := console_log
       [LStr (newline +:+ "2️⃣  Formatting data for NoviSign...")] in
     let! novisignData := formatDataForNoviSign trainData in
     let! _ := console_log
       [LStr (newline +:+ "3️⃣  Pushing to NoviSign API...")] in
     let! result := pushToNoviSign novisignData None in
     let! _ := console_log
       [LStr (newline +:+ "✅ Workflow completed successfully!")] in
     let! _ := console_log [LStr (String_repeat "=" 60)] in
     ret result)
    (fun error =>
       let! _ := console_error
         [LStr (newline +:+ "❌ Workflow failed:"); LStr (Err.message error)] in
       throw error).

(** ** Auto-update *)

(** The process: the world, and the global [updateInterval], which holds
    the handle of the recurring timer once it is armed (the period it was
    armed with) and nothing after [clearInterval]. *)
Record Process := {
  world : World;
  updateInterval : option Z
}.

(** The callback handed to [setInterval]. *)
Definition interval_callback : M (option PublishResult) :=
  promise_catch fetchAndPushToNoviSign
    (fun err => console_error [LStr "Auto-update failed:"; LStr (Err.message err)]).

(** The part of [AutoUpdater] that runs before the timer is armed. *)
Definition initial_update : M (option PublishResult) :=
  let! _ := console_log [LStr (newline +:+ "🚀 Starting auto-update service...")] in
  let! _ := console_log
    [LStr ("Interval: Every " +:+ template_Z (UPDATE_INTERVAL_MS `div` 1000) +:+ " seconds")] in
  promise_catch fetchAndPushToNoviSign
    (fun err => console_error [LStr "Initial update failed:"; LStr (Err.message err)]).

(** [AutoUpdater]: [setInterval] is reached only if what precedes it did
    not throw. *)
Definition AutoUpdater (p : Process) : Process :=
  match initial_update (world p) with
  | (Ok _, w) => {| world := w; updateInterval := Some UPDATE_INTERVAL_MS |}
  | (Throw _, w) => {| world := w; updateInterval := updateInterval p |}
  end.

(** The recurring timer fires: nothing happens unless it is armed; the
    callback's own outcome never reaches the timer. *)
Definition timer_fire (p : Process) : Process :=
  match updateInterval p with
  | Some _ =>
      {| world := snd (interval_callback (world p));
         updateInterval := updateInterval p |}
  | None => p
  end.

(** The [SIGTERM] handler: [clearInterval(updateInterval)]. *)
Definition on_SIGTERM (p : Process) : Process :=
  {| world :=
       snd (console_log [LStr (newline +:+ "Shutting down...")] (world p));
     updateInterval := None |}.

(** The process after [AutoUpdater] and [n] firings of the timer. *)
Fixpoint after_fires (n : nat) (p : Process) : Process :=
  match n with
  | O => AutoUpdater p
  | S n' => timer_fire (after_fires n' p)
  end.

End Pipeline.

(** ** The manual trigger, [GET /example] *)

Definition exampleData : JsObject Catalog.item :=
  [ ("queens_1", {| Catalog.minutesAway := "5 min" |});
    ("queens_2", {| Catalog.minutesAway := "12 min" |});
    ("queens_3", {| Catalog.minutesAway := "18 min" |});
    ("brooklyn_1", {| Catalog.minutesAway := "3 min" |});
    ("brooklyn_2", {| Catalog.minutesAway := "8 min" |});
    ("brooklyn_3", {| Catalog.minutesAway := "15 min" |}) ].

(** The two JSON bodies the route answers with. *)
Module ExampleReply.
Record pushed := {
  description : string;
  pushedTo : string;
  apiUrl : string;
  method : string;
  headers : list (string * string);
  body : RequestBody;
  result : PublishResult;
  howToUseInNoviSign : list (string * string)
}.
Record failed := {
  error : string;
  message : string;
  exampleDataStructure : JsObject Catalog.item
}.
End ExampleReply.

Inductive JsonBody :=
| PushedBody (b : ExampleReply.pushed)
| FailedBody (b : ExampleReply.failed).

(** What [res.json] / [res.status(500).json] sends. *)
Record HttpReply := { reply_status : Z; reply_json : JsonBody }.

Section Endpoints.

Variable env : Env.
Variable NOVISIGN_CONFIG : Config.

Definition example_route : M HttpReply :=
  let exampleData := exampleData in
  try_catch
    (let! _ := console_log
       [LStr (newline +:+ "📤 Pushing example data to NoviSign...")] in
     let! result := pushToNoviSign env NOVISIGN_CONFIG exampleData (Some "mta-f-train") in
     ret {| reply_status := 200;
            reply_json := PushedBody
              {| ExampleReply.description :=
                   "Example data structure and live push to NoviSign";
                 ExampleReply.pushedTo := "mta-f-train";
                 ExampleReply.apiUrl :=
                   "https://" +:+ studioDomain NOVISIGN_CONFIG
                   +:+ "/catalog/items/mta-f-train";
                 ExampleReply.method := "POST";
                 ExampleReply.headers :=
                   [("Content-Type", "application/json");
                    ("X-API-KEY", "***hidden***")];
                 ExampleReply.body := {| data := exampleData |};
                 ExampleReply.result := result;
                 ExampleReply.howToUseInNoviSign :=
                   [("step1", "Add an api connection to creative, add text box widget");
                    ("step2", "Select your items group: " +:+ String (Ascii.ascii_of_nat 34) ""
                              +:+ "mta-f-train" +:+ String (Ascii.ascii_of_nat 34) "");
                    ("step3", "Reference items by ID: {{queens_1.minutesAway}}");
                    ("step4", "Data has been pushed live - check creative preview!")] |} |})
    (λ error,
       ret {| reply_status := 500;
              reply_json := FailedBody
                {| ExampleReply.error := "Failed to push example data to NoviSign";
                   ExampleReply.message := Err.message error;
                   ExampleReply.exampleDataStructure := exampleData |} |}).

End Endpoints.

(** The address a request goes to. *)
Definition request_url (req : Request) : string :=
  match req with
  | GET url _ _ => url
  | POST url _ _ _ => url
  end.

(** ** Vocabulary of the statements *)

(** The sort key the comparator induces. *)
Definition arrival_le (a b : ArrivalItem) : Prop :=
  ToNumber (arrivalTime a) ≤ ToNumber (arrivalTime b).

(** Each configured stop feeds one bucket. *)
Inductive bucket_for : string → (Buckets → list ArrivalItem) → Prop :=
| bucket_queens : bucket_for STOP_QUEENS queensArrivals
| bucket_brooklyn : bucket_for STOP_BROOKLYN brooklynArrivals.

(** [it] is the event the selector makes of the stop-time update [stu] for
    the stop [stop]: both fields truthy, rounded minutes not negative. *)
Definition update_event (now : Z) (stop : string) (stu : StopTimeUpdate)
    (it : ArrivalItem) : Prop :=
  ∃ t,
    arrival_time stu = Some t ∧ truthy_time (Some t) = true ∧
    stopId stu = Some stop ∧
    0 ≤ minutes_away now (arrival_epoch t) ∧
    it = make_item now (arrival_epoch t).

(** [it] comes from a stop-time update of a target-route entity of the feed. *)
Definition kept_update (now : Z) (stop : string) (entities : list FeedEntity)
    (it : ArrivalItem) : Prop :=
  ∃ e tu tr stus stu,
    e ∈ entities ∧ tripUpdate e = Some tu ∧ trip tu = Some tr ∧
    routeId tr = Some ROUTE_ID ∧ stopTimeUpdate tu = Some stus ∧ stu ∈ stus ∧
    update_event now stop stu it.

(** The reading of "arrival strictly before now is excluded, judged before
    rounding". *)
Definition past_updates_excluded : Prop :=
  ∀ now bk stu t,
    arrival_time stu = Some t →
    ToNumber (arrival_epoch t) - now < 0 →
    on_stop_time_update now bk stu = bk.

Definition MAX_SAFE_INTEGER : Z := 2 ^ 53 - 1.

(** The reading of "a wrapped value is coerced to the plain integer it
    denotes, within the safe integer range". *)
Definition wrapped_time_coerced_to_its_value : Prop :=
  ∀ l : Long,
    - MAX_SAFE_INTEGER ≤ Long_toNumber l ≤ MAX_SAFE_INTEGER →
    arrival_epoch (TLong l) = TNum (Long_toNumber l).

(** The reading of "an arrival time that is present but equal to 0 is
    skipped like an absent one", whatever shape the zero arrives in. *)
Definition zero_time_skipped : Prop :=
  ∀ now bk stu t,
    arrival_time stu = Some t →
    ToNumber t = 0 →
    on_stop_time_update now bk stu = bk.

(** The six item identifiers of the catalog. *)
Definition catalog_keys : list string :=
  ["queens_1"; "queens_2"; "queens_3"; "brooklyn_1"; "brooklyn_2"; "brooklyn_3"].

(** What slot [i] (from 0) of a direction shows. *)
Definition slot_value (trains : list ArrivalItem) (i : nat) : Catalog.item :=
  match trains !! i with
  | Some train => {| Catalog.minutesAway := minutesAway train |}
  | None => {| Catalog.minutesAway := "--" |}
  end.

(** Appending console lines to a world, everything else untouched. *)
Definition log_lines (ls : list ConsoleLine) (w : World) : World :=
  {| console := console w ++ ls;
     requests := requests w;
     clock_reads := clock_reads w |}.

(** A computation that only writes console lines and returns [a]. *)
Definition writes_only {A : Type} (m : M A) (a : A) : Prop :=
  ∀ w, ∃ ls, m w = (Ok a, log_lines ls w).

Definition empty_world : World :=
  {| console := []; requests := []; clock_reads := 0 |}.

(** The one request a publish sends. *)
Definition publish_request (cfg : Config) (dataItems : JsObject Catalog.item)
    (itemsGroup : option string) : Request :=
  let group :=
    if truthy_string itemsGroup then default "" itemsGroup
    else catalogItemsGroup cfg in
  POST ("https://" +:+ studioDomain cfg +:+ "/catalog/items/" +:+ group)
       {| data := dataItems |}
       [("Content-Type", Some "application/json"); ("X-API-KEY", apiKey cfg)]
       10000.

(** The message of the error a failed publish throws. *)
Definition publish_failure (e : Err.t) : string :=
  match Err.response e with
  | Some r =>
      "NoviSign API error (" +:+ template_Z (Response.status r) +:+ "): " +:+
      (match Payload_message (Response.data r) with
       | Some msg => if String.eqb msg "" then Err.message e else msg
       | None => Err.message e
       end)
  | None => "Failed to push to NoviSign: " +:+ Err.message e
  end.

(** The one request a feed fetch sends. *)
Definition feed_request : Request := GET MTA_FEED_URL "arraybuffer" 10000.

(** Nothing fails in the cycle that starts in world [w]: the feed request is
    resolved, its body decodes to [feed], and the publish request carrying
    [items], the formatted selection, is resolved with [resp]. *)
Definition cycle_clean (env : Env) (cfg : Config) (w : World)
    (feed : FeedMessage) (items : JsObject Catalog.item) (resp : Response.t) : Prop :=
  ∃ body,
    network env (length (requests w)) feed_request = Resolved body ∧
    FeedMessage_decode env (Uint8Array_of (Response.data body)) = Ok feed ∧
    fst (formatDataForNoviSign
           (select_arrivals (clock_ms env (clock_reads w) `div` 1000) (entity feed))
           empty_world) = Ok items ∧
    network env (S (length (requests w))) (publish_request cfg items None)
      = Resolved resp.

(** The world after a computation that wrote [ls], sent [reqs] and read the
    clock [k] times. *)
Definition advance (ls : list ConsoleLine) (reqs : list Request) (k : nat)
    (w : World) : World :=
  {| console := console w ++ ls;
     requests := requests w ++ reqs;
     clock_reads := k + clock_reads w |}.

(** Run in [w], the computation returns [a] after sending [reqs] and reading
    the clock [k] times. *)
Definition steps_to {A : Type} (m : M A) (w : World) (a : A)
    (reqs : list Request) (k : nat) : Prop :=
  ∃ ls, m w = (Ok a, advance ls reqs k w).

(** A sample run: the network rejects the very first request (no response)
    and resolves every later one; the feed carries one F train for each
    configured stop. *)
Definition sample_feed : FeedMessage :=
  {| entity :=
       [ {| tripUpdate := Some
              {| trip := Some {| routeId := Some "F" |};
                 stopTimeUpdate := Some
                   [ {| arrival := Some {| time := Some (TNum 1125) |};
                        stopId := Some "D15N" |};
                     {| arrival := Some {| time := Some (TLong {| low := 4700; high := 0 |}) |};
                        stopId := Some "D15S" |} ] |} |} ] |}.

Definition sample_env : Env :=
  {| network := λ n _,
       match n with
       | O => Rejected {| Err.message := "timeout of 10000ms exceeded";
                          Err.response := None |}
       | S _ => Resolved {| Response.status := 200; Response.data := PBytes [] |}
       end;
     FeedMessage_decode := λ _, Ok sample_feed;
     clock_ms := λ _, 1000000;
     toISOString := λ _, "1970-01-01T00:16:40.000Z" |}.

Definition sample_config : Config :=
  {| studioDomain := "app.novisign.com";
     apiKey := Some "key";
     catalogItemsGroup := "mta-f-train" |}.

Definition sample_items : JsObject Catalog.item :=
  [ ("queens_1", {| Catalog.minutesAway := "2 min" |});
    ("queens_2", {| Catalog.minutesAway := "--" |});
    ("queens_3", {| Catalog.minutesAway := "--" |});
    ("brooklyn_1", {| Catalog.minutesAway := "62 min" |});
    ("brooklyn_2", {| Catalog.minutesAway := "--" |});
    ("brooklyn_3", {| Catalog.minutesAway := "--" |}) ].

Definition fresh_process : Process :=
  {| world := empty_world; updateInterval := None |}.

(** ** Closed forms of the loops *)

(** The events one stop-time update yields for the stop [stop]. *)
Definition update_events (now : Z) (stop : string) (stu : StopTimeUpdate)
    : list ArrivalItem :=
  match arrival_time stu, stopId stu with
  | Some t, Some sid =>
      if truthy_time (Some t) && String.eqb sid stop
         && negb (minutes_away now (arrival_epoch t) <? 0)
      then [make_item now (arrival_epoch t)]
      else []
  | _, _ => []
  end.

(** The events one entity yields for the stop [stop], in the order of its
    stop-time updates. *)
Definition entity_events (now : Z) (stop : string) (e : FeedEntity)
    : list ArrivalItem :=
  match tripUpdate e with
  | Some tu =>
      match trip tu, stopTimeUpdate tu with
      | Some tr, Some stus =>
          if route_differs tr then []
          else flat_map (update_events now stop) stus
      | _, _ => []
      end
  | None => []
  end.

Definition feed_events (now : Z) (stop : string) (entities : list FeedEntity)
    : list ArrivalItem :=
  flat_map (entity_events now stop) entities.

(** The rounded minutes of an event, recomputed from its arrival time. *)
Definition minutes_of (now : Z) (it : ArrivalItem) : Z :=
  minutes_away now (arrivalTime it).

(** The item identifier of slot [i] (from 0) of a direction. *)
Definition item_id (prefix : string) (i : nat) : string :=
  prefix +:+ template_nat (i + 1).

(** The entries the formatter writes for one direction: one per event, then
    placeholders while fewer than three slots are filled. *)
Definition direction_slots (prefix : string) (trains : list ArrivalItem)
    : JsObject Catalog.item :=
  (imap (λ i train, (item_id prefix i, {| Catalog.minutesAway := minutesAway train |}))
        trains ++
   map (λ i, (item_id prefix i, {| Catalog.minutesAway := "--" |}))
       (seq (length trains) (3 - length trains)))%list.

Definition formatted (td : TrainData) : JsObject Catalog.item :=
  (direction_slots "queens_" (nextThreeTrains (queensBound td)) ++
   direction_slots "brooklyn_" (nextThreeTrains (brooklynBound td)))%list.

(** Run in [w], the computation throws [e] after sending [reqs] and reading
    the clock [k] times. *)
Definition throws_to {A : Type} (m : M A) (w : World) (e : Err.t)
    (reqs : list Request) (k : nat) : Prop :=
  ∃ ls, m w = (Throw e, advance ls reqs k w).

(** The error a failed feed fetch throws. *)
Definition fetch_failure (e : Err.t) : Err.t :=
  new_Error ("Failed to fetch MTA data: " +:+ Err.message e).

(** The feed fetch of the cycle that starts in [w] fails with [e]: the
    request is rejected, or its body does not decode. *)
Definition fetch_fails (env : Env) (w : World) (e : Err.t) : Prop :=
  network env (length (requests w)) feed_request = Rejected e ∨
  ∃ body,
    network env (length (requests w)) feed_request = Resolved body ∧
    FeedMessage_decode env (Uint8Array_of (Response.data body)) = Throw e.

(** The feed fetch of the cycle that starts in [w] succeeds with [feed]. *)
Definition fetch_succeeds (env : Env) (w : World) (feed : FeedMessage) : Prop :=
  ∃ body,
    network env (length (requests w)) feed_request = Resolved body ∧
    FeedMessage_decode env (Uint8Array_of (Response.data body)) = Ok feed.

(** What the cycle that starts in [w] publishes when its fetch gives [feed]. *)
Definition cycle_items (env : Env) (w : World) (feed : FeedMessage)
    : JsObject Catalog.item :=
  formatted (select_arrivals (clock_ms env (clock_reads w) `div` 1000) (entity feed)).

(** ** The selector *)

Section SortFacts.

Context {A : Type} (key : A → Z).
Let cmp (a b : A) : Z := key a - key b.
Let le (a b : A) : Prop := key a ≤ key b.

Lemma sort_insert_perm x l : sort_insert cmp x l ≡ₚ x :: l.
Proof.
  induction l as [|y l IH]; simpl; [done|].
  destruct (0 <? cmp x y); [|done].
  rewrite IH. apply Permutation_swap.
Qed.

Lemma Array_sort_perm l : Array_sort cmp l ≡ₚ l.
Proof.
  induction l as [|x l IH]; simpl; [done|].
  fold (Array_sort cmp l). rewrite sort_insert_perm. by rewrite IH.
Qed.

Lemma sort_insert_sorted x l :
  StronglySorted le l → StronglySorted le (sort_insert cmp x l).
Proof.
  induction 1 as [|y l Hs IH Hy]; simpl.
  - repeat constructor.
  - destruct (0 <? cmp x y) eqn:E.
    + apply Z.ltb_lt in E. constructor; [done|].
      rewrite sort_insert_perm. constructor; [|done].
      unfold le, cmp in *. lia.
    + apply Z.ltb_ge in E. constructor; [by constructor|].
      constructor; [unfold le, cmp in *; lia|].
      eapply Forall_impl; [exact Hy|].
      intros z Hz. unfold le, cmp in *. lia.
Qed.

Lemma Array_sort_sorted l : StronglySorted le (Array_sort cmp l).
Proof.
  induction l as [|x l IH]; simpl; [constructor|].
  by apply sort_insert_sorted.
Qed.

End SortFacts.

Lemma StronglySorted_take {A : Type} (R : A → A → Prop) (n : nat) (l : list A) :
  StronglySorted R l → StronglySorted R (take n l).
Proof.
  intros Hs. revert n.
  induction Hs as [|x l Hs IH Hx]; intros [|n]; simpl; try constructor.
  - apply IH.
  - eapply Forall_take in Hx. exact Hx.
Qed.

Lemma minutes_negative_iff now e :
  minutes_away now e < 0 ↔ ToNumber e - now < -30.
Proof.
  unfold minutes_away, Math_round_div.
  set (d := ToNumber e - now).
  pose proof (Z.div_mod (2 * d + 60) (2 * 60) ltac:(lia)) as Hdm.
  pose proof (Z.mod_pos_bound (2 * d + 60) (2 * 60) ltac:(lia)) as Hb.
  split; intros H; lia.
Qed.

Lemma minutes_bounds now e m :
  minutes_away now e = m ↔ 60 * m - 30 ≤ ToNumber e - now < 60 * m + 30.
Proof.
  unfold minutes_away, Math_round_div.
  set (d := ToNumber e - now).
  pose proof (Z.div_mod (2 * d + 60) (2 * 60) ltac:(lia)) as Hdm.
  pose proof (Z.mod_pos_bound (2 * d + 60) (2 * 60) ltac:(lia)) as Hb.
  split; intros H; [lia|].
  symmetry. apply (Z.div_unique_pos _ _ _ (2 * d + 60 - 120 * m)); lia.
Qed.

(** The inner callback, by cases. *)
Lemma on_stu_skipped now bk stu :
  truthy_time (arrival_time stu) = false ∨ truthy_string (stopId stu) = false →
  on_stop_time_update now bk stu = bk.
Proof.
  unfold on_stop_time_update. intros [-> | ->]; simpl; [done|].
  by rewrite orb_true_r.
Qed.

Lemma on_stu_present now bk stu t sid :
  arrival_time stu = Some t → truthy_time (Some t) = true →
  stopId stu = Some sid → truthy_string (Some sid) = true →
  on_stop_time_update now bk stu =
    if minutes_away now (arrival_epoch t) <? 0 then bk
    else route_item sid (make_item now (arrival_epoch t)) bk.
Proof.
  intros Ht Htt Hs Hst. unfold on_stop_time_update.
  rewrite Ht, Hs, Htt, Hst. reflexivity.
Qed.

Lemma truthy_string_Some sid : truthy_string (Some sid) = true ↔ sid ≠ "".
Proof.
  simpl. destruct (String.eqb_spec sid ""); simpl; split; congruence.
Qed.

(** Where the items of a bucket come from. *)
Lemma on_stu_origin now bk stu stop proj it :
  bucket_for stop proj →
  it ∈ proj (on_stop_time_update now bk stu) →
  it ∈ proj bk ∨ update_event now stop stu it.
Proof.
  intros Hb Hin.
  destruct (truthy_time (arrival_time stu)) eqn:Ht;
    [|rewrite on_stu_skipped in Hin by auto; auto].
  destruct (truthy_string (stopId stu)) eqn:Hs;
    [|rewrite on_stu_skipped in Hin by auto; auto].
  destruct (arrival_time stu) as [t|] eqn:Hat; [|done].
  destruct (stopId stu) as [sid|] eqn:Hsid; [|done].
  rewrite (on_stu_present now bk stu t sid) in Hin by done.
  destruct (minutes_away now (arrival_epoch t) <? 0) eqn:Hm; [auto|].
  apply Z.ltb_ge in Hm.
  unfold route_item in Hin.
  destruct (String.eqb sid STOP_QUEENS) eqn:Eq;
    destruct (String.eqb sid STOP_BROOKLYN) eqn:Eb;
    try apply String.eqb_eq in Eq; try apply String.eqb_eq in Eb; subst;
    try discriminate Eb;
    destruct Hb; simpl in Hin; auto;
    apply elem_of_app in Hin as [Hin|Hin]; auto;
    apply list_elem_of_singleton in Hin as ->;
    right; exists t; auto.
Qed.

Lemma fold_stu_origin now stus bk stop proj it :
  bucket_for stop proj →
  it ∈ proj (fold_left (on_stop_time_update now) stus bk) →
  it ∈ proj bk ∨ ∃ stu, stu ∈ stus ∧ update_event now stop stu it.
Proof.
  intros Hb. revert bk.
  induction stus as [|stu stus IH]; intros bk Hin; simpl in Hin; [auto|].
  apply IH in Hin as [Hin|(stu' & Hstu' & Hev)].
  - eapply on_stu_origin in Hin as [Hin|Hev]; [auto| |exact Hb].
    right. exists stu. split; [left|done].
  - right. exists stu'. split; [by right|done].
Qed.

Lemma on_entity_origin now bk e stop proj it :
  bucket_for stop proj →
  it ∈ proj (on_entity now bk e) →
  it ∈ proj bk ∨ kept_update now stop [e] it.
Proof.
  intros Hb Hin. unfold on_entity in Hin.
  destruct (tripUpdate e) as [tu|] eqn:Htu; [|auto].
  destruct (trip tu) as [tr|] eqn:Htr; [|auto].
  destruct (route_differs tr) eqn:Hr; [auto|].
  destruct (stopTimeUpdate tu) as [stus|] eqn:Hstus; [|auto].
  eapply fold_stu_origin in Hin as [Hin|(stu & Hstu & Hev)]; [auto| |exact Hb].
  right. exists e, tu, tr, stus, stu.
  repeat split; try done; [apply list_elem_of_singleton; done|].
  unfold route_differs in Hr. destruct (routeId tr) as [r|]; [|done].
  destruct (String.eqb_spec r ROUTE_ID); [by subst|done].
Qed.

Lemma kept_update_mono now stop es es' it :
  es ⊆ es' → kept_update now stop es it → kept_update now stop es' it.
Proof.
  intros Hsub (e & tu & tr & stus & stu & He & H).
  exists e, tu, tr, stus, stu. split; [by apply Hsub|done].
Qed.

Lemma fold_entity_origin now es bk stop proj it :
  bucket_for stop proj →
  it ∈ proj (fold_left (on_entity now) es bk) →
  it ∈ proj bk ∨ kept_update now stop es it.
Proof.
  intros Hb. revert bk.
  induction es as [|e es IH]; intros bk Hin; simpl in Hin; [auto|].
  apply IH in Hin as [Hin|Hk].
  - eapply on_entity_origin in Hin as [Hin|Hk]; [auto| |exact Hb].
    right. eapply kept_update_mono; [|exact Hk].
    intros x Hx. apply list_elem_of_singleton in Hx as ->. left.
  - right. eapply kept_update_mono; [|exact Hk].
    by apply list_subseteq_cons.
Qed.

Lemma collect_origin now es stop proj it :
  bucket_for stop proj →
  it ∈ proj (collect now es) → kept_update now stop es it.
Proof.
  intros Hb Hin. unfold collect in Hin.
  eapply fold_entity_origin in Hin as [Hin|Hk]; [|done|exact Hb].
  destruct Hb; simpl in Hin; by apply elem_of_nil in Hin.
Qed.

Lemma selected_window (l : list ArrivalItem) :
  let out := slice_0_3 (Array_sort by_arrivalTime l) in
  (length out ≤ 3)%nat ∧ StronglySorted arrival_le out ∧ ∀ it, it ∈ out → it ∈ l.
Proof.
  simpl. unfold slice_0_3. split; [|split].
  - rewrite length_take. lia.
  - apply StronglySorted_take.
    apply (Array_sort_sorted (λ it, ToNumber (arrivalTime it))).
  - intros it Hin. apply elem_of_take in Hin as (i & Hi & _).
    rewrite <- (Array_sort_perm (λ it, ToNumber (arrivalTime it)) l).
    by eapply list_elem_of_lookup_2.
Qed.

(** C1 (windowing): whatever the decoded feed and the reference time, each
    direction of the selector's output has at most 3 events, is sorted
    ascending by [arrivalTime], and every event in it is the event of a
    stop-time update of the feed whose rounded minutes-away is not negative. *)
Theorem selector_window (now : Z) (entities : list FeedEntity) :
  let out := select_arrivals now entities in
  ((length (nextThreeTrains (queensBound out)) ≤ 3)%nat ∧
   StronglySorted arrival_le (nextThreeTrains (queensBound out)) ∧
   ∀ it, it ∈ nextThreeTrains (queensBound out) →
     kept_update now STOP_QUEENS entities it) ∧
  ((length (nextThreeTrains (brooklynBound out)) ≤ 3)%nat ∧
   StronglySorted arrival_le (nextThreeTrains (brooklynBound out)) ∧
   ∀ it, it ∈ nextThreeTrains (brooklynBound out) →
     kept_update now STOP_BROOKLYN entities it).
Proof.
  simpl.
  split.
  - destruct (selected_window (queensArrivals (collect now entities)))
      as (Hlen & Hsort & Hsub).
    repeat split; [done..|].
    intros it Hin. eapply collect_origin; [constructor|]. by apply Hsub.
  - destruct (selected_window (brooklynArrivals (collect now entities)))
      as (Hlen & Hsort & Hsub).
    repeat split; [done..|].
    intros it Hin. eapply collect_origin; [constructor|]. by apply Hsub.
Qed.

(** C2 (labelling boundary): for a stop-time update that passes the presence
    test, rounded minutes 0 give the label "Arriving", 1 gives "1 min", any
    N >= 1 gives "<N> min", and with rounded minutes -1 the update adds
    nothing to either bucket. *)
Theorem label_boundary (now : Z) (bk : Buckets) (stu : StopTimeUpdate)
    (t : TimeValue) (sid : string) :
  arrival_time stu = Some t → truthy_time (Some t) = true →
  stopId stu = Some sid → truthy_string (Some sid) = true →
  let m := minutes_away now (arrival_epoch t) in
  let event lbl := {| minutesAway := lbl; arrivalTime := arrival_epoch t |} in
  (m = 0 → on_stop_time_update now bk stu = route_item sid (event "Arriving") bk) ∧
  (m = 1 → on_stop_time_update now bk stu = route_item sid (event "1 min") bk) ∧
  (1 ≤ m →
     on_stop_time_update now bk stu =
       route_item sid (event (template_Z m +:+ " min")) bk) ∧
  (m = -1 → on_stop_time_update now bk stu = bk).
Proof.
  intros Ht Htt Hs Hst m event.
  rewrite (on_stu_present now bk stu t sid) by done.
  fold m. unfold make_item, label. fold m. subst event.
  repeat split; intros Hm.
  - by rewrite Hm.
  - by rewrite Hm.
  - destruct (m <? 0) eqn:E1; [apply Z.ltb_lt in E1; lia|].
    destruct (m <=? 0) eqn:E2; [apply Z.leb_le in E2; lia|]. done.
  - by rewrite Hm.
Qed.

Lemma label_boundary_witness :
  let stu := {| arrival := Some {| time := Some (TNum 1125) |};
                stopId := Some STOP_QUEENS |} in
  on_stop_time_update 1000 no_arrivals stu =
    {| queensArrivals := [ {| minutesAway := "2 min"; arrivalTime := TNum 1125 |} ];
       brooklynArrivals := [] |}.
Proof.
  intros stu.
  pose proof (label_boundary 1000 no_arrivals stu (TNum 1125) STOP_QUEENS
                eq_refl eq_refl eq_refl eq_refl) as (_ & _ & H & _).
  rewrite H; [reflexivity|]. vm_compute. discriminate.
Defined.

(** C3, as stated, fails: an update 10 seconds in the past rounds to minute 0
    and is kept, labelled "Arriving"; exclusion is not judged before
    rounding. *)
Lemma past_update_retained : ¬ past_updates_excluded.
Proof.
  intros H.
  specialize (H 1000 no_arrivals
    {| arrival := Some {| time := Some (TNum 990) |}; stopId := Some STOP_QUEENS |}
    (TNum 990) eq_refl ltac:(simpl; lia)).
  vm_compute in H. discriminate H.
Qed.

(** C3 (amended): the time test is made on the rounded minutes.  An update
    whose arrival epoch is more than 30 seconds before [now] is excluded; an
    update with arrival epoch at least [now - 30] passes the time test and is
    routed to the bucket of its stop. *)
Theorem exclusion_after_rounding (now : Z) (bk : Buckets) (stu : StopTimeUpdate)
    (t : TimeValue) (sid : string) :
  arrival_time stu = Some t → truthy_time (Some t) = true →
  stopId stu = Some sid → truthy_string (Some sid) = true →
  (ToNumber (arrival_epoch t) - now < -30 →
     on_stop_time_update now bk stu = bk) ∧
  (-30 ≤ ToNumber (arrival_epoch t) - now →
     on_stop_time_update now bk stu =
       route_item sid (make_item now (arrival_epoch t)) bk).
Proof.
  intros Ht Htt Hs Hst.
  rewrite (on_stu_present now bk stu t sid) by done.
  pose proof (minutes_negative_iff now (arrival_epoch t)) as Hiff.
  split; intros Hd.
  - destruct (minutes_away now (arrival_epoch t) <? 0) eqn:E; [done|].
    apply Z.ltb_ge in E. lia.
  - destruct (minutes_away now (arrival_epoch t) <? 0) eqn:E; [|done].
    apply Z.ltb_lt in E. lia.
Qed.

Lemma exclusion_after_rounding_witness :
  let mk a := {| arrival := Some {| time := Some (TNum a) |};
                 stopId := Some STOP_BROOKLYN |} in
  on_stop_time_update 1000 no_arrivals (mk 969) = no_arrivals ∧
  on_stop_time_update 1000 no_arrivals (mk 970) =
    {| queensArrivals := [];
       brooklynArrivals := [ {| minutesAway := "Arriving"; arrivalTime := TNum 970 |} ] |}.
Proof.
  intros mk. split.
  - apply (exclusion_after_rounding 1000 no_arrivals (mk 969) (TNum 969) STOP_BROOKLYN
             eq_refl eq_refl eq_refl eq_refl).
    simpl. lia.
  - pose proof (exclusion_after_rounding 1000 no_arrivals (mk 970) (TNum 970)
                  STOP_BROOKLYN eq_refl eq_refl eq_refl eq_refl) as [_ H].
    rewrite H; [reflexivity|]. simpl. lia.
Defined.

(** Dropping an element on which the callback does nothing. *)
Lemma collect_skip now pre e post :
  (∀ bk, on_entity now bk e = bk) →
  select_arrivals now (pre ++ e :: post) = select_arrivals now (pre ++ post).
Proof.
  intros Hskip. unfold select_arrivals, collect.
  rewrite !fold_left_app. simpl. by rewrite Hskip.
Qed.

(** C5 (route/stop filtering): an entity without a trip update, or whose
    route identifier is not the target route, leaves both buckets as they
    were, so the selector's output is the same as without that entity; a
    stop-time update whose stop identifier is neither configured stop leaves
    both buckets as they were. *)
Theorem filtered_contribute_nothing (now : Z) :
  (∀ bk e pre post,
     tripUpdate e = None →
     on_entity now bk e = bk ∧
     select_arrivals now (pre ++ e :: post) = select_arrivals now (pre ++ post)) ∧
  (∀ bk e tu tr pre post,
     tripUpdate e = Some tu → trip tu = Some tr → routeId tr ≠ Some ROUTE_ID →
     on_entity now bk e = bk ∧
     select_arrivals now (pre ++ e :: post) = select_arrivals now (pre ++ post)) ∧
  (∀ bk stu,
     stopId stu ≠ Some STOP_QUEENS → stopId stu ≠ Some STOP_BROOKLYN →
     on_stop_time_update now bk stu = bk).
Proof.
  split; [|split].
  - intros bk e pre post He.
    assert (∀ bk, on_entity now bk e = bk) as Hskip
      by (intros bk'; unfold on_entity; by rewrite He).
    split; [apply Hskip|by apply collect_skip].
  - intros bk e tu tr pre post He Htr Hr.
    assert (route_differs tr = true) as Hd.
    { unfold route_differs. destruct (routeId tr) as [r|]; [|done].
      destruct (String.eqb_spec r ROUTE_ID); [by subst|done]. }
    assert (∀ bk, on_entity now bk e = bk) as Hskip
      by (intros bk'; unfold on_entity; by rewrite He, Htr, Hd).
    split; [apply Hskip|by apply collect_skip].
  - intros bk stu Hq Hb.
    destruct (truthy_time (arrival_time stu)) eqn:Ht;
      [|apply on_stu_skipped; auto].
    destruct (truthy_string (stopId stu)) eqn:Hs;
      [|apply on_stu_skipped; auto].
    destruct (arrival_time stu) as [t|] eqn:Hat; [|done].
    destruct (stopId stu) as [sid|] eqn:Hsid; [|done].
    rewrite (on_stu_present now bk stu t sid) by done.
    destruct (minutes_away now (arrival_epoch t) <? 0); [done|].
    unfold route_item.
    destruct (String.eqb_spec sid STOP_QUEENS); [by subst|].
    destruct (String.eqb_spec sid STOP_BROOKLYN); [by subst|]. done.
Qed.

Lemma filtered_contribute_nothing_witness :
  let stus := Some [ {| arrival := Some {| time := Some (TNum 1125) |};
                        stopId := Some STOP_QUEENS |} ] in
  let other_route :=
    {| tripUpdate := Some {| trip := Some {| routeId := Some "M" |};
                             stopTimeUpdate := stus |} |} in
  on_entity 1000 no_arrivals {| tripUpdate := None |} = no_arrivals ∧
  on_entity 1000 no_arrivals other_route = no_arrivals ∧
  on_stop_time_update 1000 no_arrivals
    {| arrival := Some {| time := Some (TNum 1125) |}; stopId := Some "D16N" |}
  = no_arrivals.
Proof.
  intros stus other_route.
  destruct (filtered_contribute_nothing 1000) as (H1 & H2 & H3).
  split; [|split].
  - apply (H1 no_arrivals {| tripUpdate := None |} [] []). reflexivity.
  - apply (H2 no_arrivals other_route
             {| trip := Some {| routeId := Some "M" |}; stopTimeUpdate := stus |}
             {| routeId := Some "M" |} [] []); [reflexivity..|].
    discriminate.
  - apply H3; discriminate.
Defined.

(** C8, as stated, fails: the wrapped value 2^32 + 5 lies within the safe
    integer range, yet the selector works with 5; only the low word
    survives. *)
Lemma wrapped_time_loses_high_word : ¬ wrapped_time_coerced_to_its_value.
Proof.
  intros H.
  specialize (H {| low := 5; high := 1 |}).
  vm_compute in H.
  assert (TNum 5 = TNum 4294967301) as Heq
    by (apply H; split; discriminate).
  discriminate Heq.
Qed.

(** A wrapped value whose low word is zero is not coerced at all. *)
Example wrapped_time_zero_low_word :
  arrival_epoch (TLong {| low := 0; high := 1 |}) = TLong {| low := 0; high := 1 |}.
Proof. reflexivity. Qed.

(** C8 (amended): for a wrapped 64-bit arrival time with a non-zero low word,
    the selector takes that low 32-bit word as a plain integer, and the
    update is processed exactly as the update carrying this plain integer:
    same minutes-away, same label, same [arrivalTime] for the sort. *)
Theorem wrapped_time_low_word (now : Z) (bk : Buckets) (l : Long)
    (sid : option string) :
  low l ≠ 0 →
  arrival_epoch (TLong l) = TNum (low l) ∧
  on_stop_time_update now bk
    {| arrival := Some {| time := Some (TLong l) |}; stopId := sid |} =
  on_stop_time_update now bk
    {| arrival := Some {| time := Some (TNum (low l)) |}; stopId := sid |}.
Proof.
  intros Hlow.
  assert (arrival_epoch (TLong l) = TNum (low l)) as He.
  { unfold arrival_epoch. destruct (low l =? 0) eqn:E; [|done].
    apply Z.eqb_eq in E. lia. }
  split; [done|].
  unfold on_stop_time_update, arrival_time. simpl.
  destruct (low l =? 0) eqn:E; [apply Z.eqb_eq in E; lia|]. done.
Qed.

Lemma wrapped_time_low_word_witness :
  on_stop_time_update 1000 no_arrivals
    {| arrival := Some {| time := Some (TLong {| low := 1125; high := 1 |}) |};
       stopId := Some STOP_QUEENS |} =
  {| queensArrivals := [ {| minutesAway := "2 min"; arrivalTime := TNum 1125 |} ];
     brooklynArrivals := [] |}.
Proof.
  destruct (wrapped_time_low_word 1000 no_arrivals {| low := 1125; high := 1 |}
              (Some STOP_QUEENS)) as [_ H]; [simpl; lia|].
  rewrite H. reflexivity.
Defined.

(** C10, as stated, fails: a wrapped 64-bit zero is present and equal to 0,
    but it is an object, hence truthy; it passes the presence test, and with
    the reference time at epoch zero the update is kept. *)
Lemma wrapped_zero_time_kept : ¬ zero_time_skipped.
Proof.
  intros H.
  specialize (H 0 no_arrivals
    {| arrival := Some {| time := Some (TLong {| low := 0; high := 0 |}) |};
       stopId := Some STOP_QUEENS |}
    (TLong {| low := 0; high := 0 |}) eq_refl eq_refl).
  vm_compute in H. discriminate H.
Qed.

(** C10 (amended): the presence test is falsiness.  A stop-time update whose
    arrival time is the plain number 0, or whose stop identifier is the empty
    string, is skipped like one where the field is missing: the buckets are
    left as they were (and the selector, being total, raises nothing). *)
Theorem falsy_fields_skipped (now : Z) (bk : Buckets) (stu : StopTimeUpdate) :
  (arrival_time stu = Some (TNum 0) ∨ arrival_time stu = None ∨
   stopId stu = Some "" ∨ stopId stu = None) →
  on_stop_time_update now bk stu = bk.
Proof.
  intros H. apply on_stu_skipped.
  destruct H as [-> | [-> | [-> | ->]]]; auto.
Qed.

Lemma falsy_fields_skipped_witness :
  on_stop_time_update 0 no_arrivals
    {| arrival := Some {| time := Some (TNum 0) |}; stopId := Some STOP_QUEENS |}
    = no_arrivals ∧
  on_stop_time_update 1000 no_arrivals
    {| arrival := Some {| time := Some (TNum 1125) |}; stopId := Some "" |}
    = no_arrivals.
Proof.
  split.
  - apply falsy_fields_skipped. left. reflexivity.
  - apply falsy_fields_skipped. right. right. left. reflexivity.
Defined.

(** A wrapped zero is an object, hence truthy: it passes the presence test
    and is left to the time test. *)
Example wrapped_zero_passes_presence_test :
  on_stop_time_update 0 no_arrivals
    {| arrival := Some {| time := Some (TLong {| low := 0; high := 0 |}) |};
       stopId := Some STOP_QUEENS |} =
  {| queensArrivals :=
       [ {| minutesAway := "Arriving";
            arrivalTime := TLong {| low := 0; high := 0 |} |} ];
     brooklynArrivals := [] |}.
Proof. reflexivity. Qed.

(** ** Console-only computations *)

Lemma log_lines_nil w : log_lines [] w = w.
Proof. destruct w. unfold log_lines. simpl. by rewrite app_nil_r. Qed.

Lemma log_lines_app ls1 ls2 w :
  log_lines ls2 (log_lines ls1 w) = log_lines (ls1 ++ ls2)%list w.
Proof. unfold log_lines. simpl. by rewrite app_assoc. Qed.

Lemma writes_only_ret {A : Type} (a : A) : writes_only (ret a) a.
Proof. intros w. exists []. by rewrite log_lines_nil. Qed.

Lemma writes_only_bind {A B : Type} (m : M A) (k : A → M B) a b :
  writes_only m a → writes_only (k a) b → writes_only (bind m k) b.
Proof.
  intros Hm Hk w. destruct (Hm w) as [ls1 H1].
  destruct (Hk (log_lines ls1 w)) as [ls2 H2].
  exists (ls1 ++ ls2)%list. unfold bind. by rewrite H1, H2, log_lines_app.
Qed.

Lemma writes_only_log args : writes_only (console_log args) tt.
Proof. intros w. by exists [Stdout args]. Qed.

Lemma writes_only_forEach {A St : Type} (f : St → A → nat → M St) l :
  (∀ s x i, ∃ s', writes_only (f s x i) s') →
  ∀ i s, ∃ s', writes_only (forEach_from f l i s) s'.
Proof.
  intros Hf. induction l as [|x l IH]; intros i s; simpl.
  - exists s. apply writes_only_ret.
  - destruct (Hf s x i) as [s1 H1]. destruct (IH (S i) s1) as [s2 H2].
    exists s2. by eapply writes_only_bind.
Qed.

Lemma writes_only_for {St : Type} (f : St → nat → M St) steps :
  (∀ s i, ∃ s', writes_only (f s i) s') →
  ∀ i s, ∃ s', writes_only (for_steps f i steps s) s'.
Proof.
  intros Hf. induction steps as [|steps IH]; intros i s; simpl.
  - exists s. apply writes_only_ret.
  - destruct (Hf s i) as [s1 H1]. destruct (IH (S i) s1) as [s2 H2].
    exists s2. by eapply writes_only_bind.
Qed.

Ltac log_then_ret :=
  intros; eexists; eapply writes_only_bind;
  [apply writes_only_log | apply writes_only_ret].

(** The formatter writes console lines and nothing else, and what it returns
    does not depend on the world it runs in. *)
Lemma format_writes_only td : ∃ items, writes_only (formatDataForNoviSign td) items.
Proof.
  unfold formatDataForNoviSign, forEach_indexed, for_range.
  edestruct (writes_only_forEach
    (λ items train index,
       let! _ := console_log
         [LStr ("✓ " +:+ ("queens_" +:+ template_nat (index + 1)) +:+ ": "
                +:+ minutesAway train)] in
       ret (obj_set ("queens_" +:+ template_nat (index + 1))
              {| Catalog.minutesAway := minutesAway train |} items))
    (nextThreeTrains (queensBound td)) ltac:(log_then_ret) 0%nat [])
    as [s1 H1].
  edestruct (writes_only_for
    (λ items i,
       let! _ := console_log
         [LStr ("✓ " +:+ ("queens_" +:+ template_nat (i + 1))
                +:+ ": No train (placeholder)")] in
       ret (obj_set ("queens_" +:+ template_nat (i + 1))
              {| Catalog.minutesAway := "--" |} items))
    (3 - length (nextThreeTrains (queensBound td)))%nat ltac:(log_then_ret)
    (length (nextThreeTrains (queensBound td))) s1)
    as [s2 H2].
  edestruct (writes_only_forEach
    (λ items train index,
       let! _ := console_log
         [LStr ("✓ " +:+ ("brooklyn_" +:+ template_nat (index + 1)) +:+ ": "
                +:+ minutesAway train)] in
       ret (obj_set ("brooklyn_" +:+ template_nat (index + 1))
              {| Catalog.minutesAway := minutesAway train |} items))
    (nextThreeTrains (brooklynBound td)) ltac:(log_then_ret) 0%nat s2)
    as [s3 H3].
  edestruct (writes_only_for
    (λ items i,
       let! _ := console_log
         [LStr ("✓ " +:+ ("brooklyn_" +:+ template_nat (i + 1))
                +:+ ": No train (placeholder)")] in
       ret (obj_set ("brooklyn_" +:+ template_nat (i + 1))
              {| Catalog.minutesAway := "--" |} items))
    (3 - length (nextThreeTrains (brooklynBound td)))%nat ltac:(log_then_ret)
    (length (nextThreeTrains (brooklynBound td))) s3)
    as [s4 H4].
  exists s4.
  eapply writes_only_bind; [apply writes_only_log|].
  eapply writes_only_bind; [exact H1|].
  eapply writes_only_bind; [exact H2|].
  eapply writes_only_bind; [exact H3|].
  eapply writes_only_bind; [exact H4|].
  apply writes_only_ret.
Qed.

(** C9 (idempotent formatting): formatting the same pair twice, the second
    call running in the world the first one left, returns the same item map;
    the result does not depend on the world at all, and the only trace a call
    leaves is on the console. *)
Theorem format_twice_same (td : TrainData) (w : World) :
  let first := formatDataForNoviSign td w in
  let second := formatDataForNoviSign td (snd first) in
  fst second = fst first ∧
  (∀ w', fst (formatDataForNoviSign td w') = fst first) ∧
  requests (snd second) = requests w ∧
  clock_reads (snd second) = clock_reads w.
Proof.
  destruct (format_writes_only td) as [items H].
  simpl. destruct (H w) as [ls1 ->]. simpl.
  destruct (H (log_lines ls1 w)) as [ls2 ->]. simpl.
  split; [done|]. split; [|done].
  intros w'. by destruct (H w') as [ls' ->].
Qed.

(** ** The formatter's output *)

Lemma as_map_lookup {V : Type} (o : JsObject V) k : as_map o !! k = obj_get k o.
Proof.
  unfold as_map. induction o as [|[k' v'] o IH]; simpl; [done|].
  destruct (String.eqb_spec k' k) as [->|Hne].
  - by rewrite lookup_insert_eq.
  - by rewrite lookup_insert_ne.
Qed.

Lemma as_map_dom {V : Type} (o : JsObject V) :
  dom (as_map o) = list_to_set (Object_keys o).
Proof. unfold as_map, Object_keys. apply dom_list_to_map_L. Qed.

(** C4 (padding): for two directions of at most 3 events each, the formatter
    returns a map whose keys are exactly the six item identifiers; slot i of a
    direction holds the minutesAway of its i-th event when there is one and
    the sentinel "--" otherwise. *)
Theorem format_fixed_shape (td : TrainData) (w : World) :
  (length (nextThreeTrains (queensBound td)) ≤ 3)%nat →
  (length (nextThreeTrains (brooklynBound td)) ≤ 3)%nat →
  ∃ items w',
    formatDataForNoviSign td w = (Ok items, w') ∧
    Object_keys items = catalog_keys ∧
    dom (as_map items) = list_to_set catalog_keys ∧
    ∀ i : nat, (i < 3)%nat →
      as_map items !! ("queens_" +:+ template_nat (i + 1)) =
        Some (slot_value (nextThreeTrains (queensBound td)) i) ∧
      as_map items !! ("brooklyn_" +:+ template_nat (i + 1)) =
        Some (slot_value (nextThreeTrains (brooklynBound td)) i).
Proof.
  intros Hq Hb.
  destruct (format_writes_only td) as [items H].
  destruct (H w) as [ls Hw]. exists items, (log_lines ls w).
  split; [done|].
  destruct (H empty_world) as [ls0 H0]. clear H Hw.
  rewrite as_map_dom.
  assert (Object_keys items = catalog_keys ∧
          ∀ i : nat, (i < 3)%nat →
            obj_get ("queens_" +:+ template_nat (i + 1)) items =
              Some (slot_value (nextThreeTrains (queensBound td)) i) ∧
            obj_get ("brooklyn_" +:+ template_nat (i + 1)) items =
              Some (slot_value (nextThreeTrains (brooklynBound td)) i)) as [Hk Hs].
  { destruct td as [[q] [b]]. simpl in Hq, Hb |- *.
    destruct q as [|q1 [|q2 [|q3 [|q4 q]]]]; simpl in Hq; try lia;
      destruct b as [|b1 [|b2 [|b3 [|b4 b]]]]; simpl in Hb; try lia;
      vm_compute in H0; injection H0 as <- _;
      (split; [reflexivity|]);
      intros [|[|[|i]]] Hi; try lia; split; reflexivity. }
  split; [done|]. split; [by rewrite Hk|].
  intros i Hi. rewrite !as_map_lookup. by apply Hs.
Qed.

Lemma format_fixed_shape_witness :
  let td :=
    {| queensBound :=
         {| nextThreeTrains :=
              [ {| minutesAway := "2 min"; arrivalTime := TNum 1125 |};
                {| minutesAway := "62 min"; arrivalTime := TNum 4700 |} ] |};
       brooklynBound := {| nextThreeTrains := [] |} |} in
  ∃ items w',
    formatDataForNoviSign td empty_world = (Ok items, w') ∧
    as_map items !! "queens_1" = Some {| Catalog.minutesAway := "2 min" |} ∧
    as_map items !! "queens_2" = Some {| Catalog.minutesAway := "62 min" |} ∧
    as_map items !! "queens_3" = Some {| Catalog.minutesAway := "--" |} ∧
    as_map items !! "brooklyn_1" = Some {| Catalog.minutesAway := "--" |}.
Proof.
  intros td.
  destruct (format_fixed_shape td empty_world) as (items & w' & Hrun & _ & _ & Hs);
    [simpl; lia..|].
  exists items, w'. split; [exact Hrun|].
  pose proof (Hs 0%nat ltac:(lia)) as [Hq1 Hb1].
  pose proof (Hs 1%nat ltac:(lia)) as [Hq2 _].
  pose proof (Hs 2%nat ltac:(lia)) as [Hq3 _].
  repeat split; assumption.
Defined.

(** ** The publisher *)

Lemma push_resolved env cfg dataItems itemsGroup w resp :
  network env (length (requests w)) (publish_request cfg dataItems itemsGroup)
    = Resolved resp →
  ∃ ls,
    pushToNoviSign env cfg dataItems itemsGroup w =
      (Ok {| success := true;
             itemsUpdated := length (Object_keys dataItems);
             timestamp := toISOString env (clock_ms env (clock_reads w));
             response := Response.data resp |},
       advance ls [publish_request cfg dataItems itemsGroup] 1 w).
Proof.
  intros Hnet.
  unfold pushToNoviSign, bind, try_catch, console_log, write_line,
    axios_request, Date_now, ret.
  fold (publish_request cfg dataItems itemsGroup). simpl.
  rewrite Hnet. simpl. unfold advance. simpl.
  eexists. f_equal. f_equal. rewrite <- !app_assoc. reflexivity.
Qed.

Lemma push_rejected env cfg dataItems itemsGroup w e :
  network env (length (requests w)) (publish_request cfg dataItems itemsGroup)
    = Rejected e →
  ∃ ls,
    pushToNoviSign env cfg dataItems itemsGroup w =
      (Throw (new_Error (publish_failure e)),
       advance ls [publish_request cfg dataItems itemsGroup] 0 w).
Proof.
  intros Hnet.
  unfold pushToNoviSign, bind, try_catch, console_log, console_error, write_line,
    axios_request, Date_now, ret, throw.
  fold (publish_request cfg dataItems itemsGroup). simpl.
  rewrite Hnet. simpl. unfold advance, publish_failure. simpl.
  destruct (Err.response e) as [r|]; simpl.
  - eexists. f_equal.
    + destruct (Payload_message (Response.data r)) as [msg|]; simpl; [|done].
      by destruct (String.eqb msg "").
    + f_equal. rewrite <- !app_assoc. reflexivity.
  - eexists. f_equal. f_equal. rewrite <- !app_assoc. reflexivity.
Qed.

(** C6 (publish outcome): a publish sends exactly one request, whatever the
    outcome (no retry).  It returns a result exactly when that request is
    resolved, and the result then has [success = true] and [itemsUpdated]
    equal to the number of keys of the item map sent; when the request is
    rejected, by the remote end or by the transport, it throws one error
    whose message describes the failure. *)
Theorem push_outcome (env : Env) (cfg : Config) (dataItems : JsObject Catalog.item)
    (itemsGroup : option string) (w : World) :
  let req := publish_request cfg dataItems itemsGroup in
  let run := pushToNoviSign env cfg dataItems itemsGroup w in
  requests (snd run) = (requests w ++ [req])%list ∧
  ((∃ res, fst run = Ok res) ↔
   (∃ resp, network env (length (requests w)) req = Resolved resp)) ∧
  match network env (length (requests w)) req with
  | Resolved resp =>
      fst run = Ok {| success := true;
                      itemsUpdated := length (Object_keys dataItems);
                      timestamp := toISOString env (clock_ms env (clock_reads w));
                      response := Response.data resp |}
  | Rejected e => fst run = Throw (new_Error (publish_failure e))
  end.
Proof.
  intros req run. subst req run.
  destruct (network env (length (requests w))
              (publish_request cfg dataItems itemsGroup)) as [resp|e] eqn:Hnet.
  - destruct (push_resolved _ _ _ _ _ _ Hnet) as [ls ->]. simpl.
    split; [done|]. split; [|done]. split; eauto.
  - destruct (push_rejected _ _ _ _ _ _ Hnet) as [ls ->]. simpl.
    split; [done|]. split; [|done].
    split; [intros [res Hres]; discriminate Hres|intros [resp Hr]; discriminate Hr].
Qed.

(** ** The update cycle and its scheduler *)

Lemma advance_advance ls1 r1 k1 ls2 r2 k2 w :
  advance ls2 r2 k2 (advance ls1 r1 k1 w) =
  advance (ls1 ++ ls2) (r1 ++ r2) (k1 + k2) w.
Proof.
  unfold advance. simpl. f_equal; [by rewrite app_assoc..|lia].
Qed.

Lemma steps_ret {A : Type} (a : A) w : steps_to (ret a) w a [] 0.
Proof.
  exists []. unfold ret, advance. destruct w. simpl. by rewrite !app_nil_r.
Qed.

Lemma steps_bind {A B : Type} (m : M A) (f : A → M B) w a b r1 k1 r2 k2 :
  steps_to m w a r1 k1 →
  (∀ w', requests w' = (requests w ++ r1)%list →
         clock_reads w' = (k1 + clock_reads w)%nat →
         steps_to (f a) w' b r2 k2) →
  steps_to (bind m f) w b (r1 ++ r2) (k1 + k2).
Proof.
  intros [ls1 H1] Hf.
  destruct (Hf (advance ls1 r1 k1 w) eq_refl eq_refl) as [ls2 H2].
  exists (ls1 ++ ls2)%list. unfold bind. by rewrite H1, H2, advance_advance.
Qed.

Lemma steps_quiet {A B : Type} (m : M A) (f : A → M B) w a b r k :
  writes_only m a →
  (∀ w', requests w' = requests w → clock_reads w' = clock_reads w →
         steps_to (f a) w' b r k) →
  steps_to (bind m f) w b r k.
Proof.
  intros Hm Hf.
  apply (steps_bind m f w a b [] 0 r k).
  - destruct (Hm w) as [ls H]. exists ls. rewrite H.
    unfold log_lines, advance. simpl. by rewrite app_nil_r.
  - intros w' Hr Hc. apply Hf; [by rewrite Hr, app_nil_r|done].
Qed.

Lemma steps_try {A : Type} (body : M A) (handler : Err.t → M A) w a r k :
  steps_to body w a r k → steps_to (try_catch body handler) w a r k.
Proof. intros [ls H]. exists ls. unfold try_catch. by rewrite H. Qed.

Lemma fetch_resolved env w body feed :
  network env (length (requests w)) feed_request = Resolved body →
  FeedMessage_decode env (Uint8Array_of (Response.data body)) = Ok feed →
  steps_to (fetchFTrainArrivals env) w
    (select_arrivals (clock_ms env (clock_reads w) `div` 1000) (entity feed))
    [feed_request] 1.
Proof.
  intros Hnet Hdec. exists [].
  unfold fetchFTrainArrivals, try_catch, bind, axios_request, decode, Date_now, ret.
  fold feed_request. rewrite Hnet. simpl. rewrite Hdec. simpl.
  unfold advance. by rewrite app_nil_r.
Qed.

Ltac quiet_step :=
  apply steps_quiet with (a := tt); [apply writes_only_log | intros ?w ?Hr ?Hc].

(** A clean cycle runs to completion: it sends the feed request and the
    publish request, and returns the publish result. *)
Lemma cycle_resolved env cfg w feed items resp :
  cycle_clean env cfg w feed items resp →
  steps_to (fetchAndPushToNoviSign env cfg) w
    {| success := true;
       itemsUpdated := length (Object_keys items);
       timestamp := toISOString env (clock_ms env (S (clock_reads w)));
       response := Response.data resp |}
    [feed_request; publish_request cfg items None] 2.
Proof.
  intros (body & Hnet & Hdec & Hfmt & Hpost).
  set (td := select_arrivals (clock_ms env (clock_reads w) `div` 1000) (entity feed)) in *.
  destruct (format_writes_only td) as [items' Hw].
  assert (items' = items) as ->.
  { destruct (Hw empty_world) as [ls0 H0]. rewrite H0 in Hfmt. simpl in Hfmt.
    congruence. }
  unfold fetchAndPushToNoviSign. apply steps_try.
  do 3 quiet_step.
  apply (steps_bind _ _ _ td _ [feed_request] 1 [publish_request cfg items None] 1).
  { replace (requests w) with (requests w2) in Hnet by congruence.
    subst td. replace (clock_reads w) with (clock_reads w2) by congruence.
    by apply (fetch_resolved env _ body feed). }
  intros w3 Hr3 Hc3.
  do 2 quiet_step.
  apply steps_quiet with (a := items); [exact Hw|]. intros w6 Hr6 Hc6.
  quiet_step.
  apply (steps_bind _ _ _
           {| success := true;
              itemsUpdated := length (Object_keys items);
              timestamp := toISOString env (clock_ms env (S (clock_reads w)));
              response := Response.data resp |}
           _ [publish_request cfg items None] 1 [] 0).
  { destruct (push_resolved env cfg items None w7 resp) as [ls H].
    - replace (requests w7) with (requests w ++ [feed_request])%list by congruence.
      by rewrite length_app, Nat.add_1_r.
    - exists ls. rewrite H.
      replace (clock_reads w7) with (S (clock_reads w))
        by (simpl in Hc3; congruence).
      done. }
  intros w8 Hr8 Hc8.
  do 2 quiet_step.
  apply steps_ret.
Qed.

Lemma callback_handled env cfg w :
  ∃ r, fst (interval_callback env cfg w) = Ok r.
Proof.
  unfold interval_callback, promise_catch.
  destruct (fetchAndPushToNoviSign env cfg w) as [[res|e] w']; simpl; eauto.
Qed.

Lemma initial_handled env cfg w :
  ∃ r w', initial_update env cfg w = (Ok r, w').
Proof.
  unfold initial_update, bind, console_log, write_line, promise_catch. simpl.
  match goal with
  | |- context [fetchAndPushToNoviSign env cfg ?w0] =>
      destruct (fetchAndPushToNoviSign env cfg w0) as [[res|e] w']
  end; simpl; eauto.
Qed.

Lemma timer_stays_armed env cfg n p :
  updateInterval (after_fires env cfg n p) = Some UPDATE_INTERVAL_MS.
Proof.
  induction n as [|n IH]; simpl.
  - unfold AutoUpdater.
    destruct (initial_handled env cfg (world p)) as (r & w' & ->). done.
  - unfold timer_fire. by rewrite IH.
Qed.

(** C7 (cycle isolation): after the start-up cycle and any number of timer
    firings, whatever failed in them, the recurring timer is still armed and
    the callback hands no error to it.  A cycle that fails is logged at the
    cycle boundary and leaves the timer armed; the next firing, if nothing
    fails in it, fetches, selects, formats and publishes to completion. *)
Theorem cycles_isolated (env : Env) (cfg : Config) (p : Process) (n : nat) :
  let s := after_fires env cfg n p in
  updateInterval s = Some UPDATE_INTERVAL_MS ∧
  (∃ r, fst (interval_callback env cfg (world s)) = Ok r) ∧
  (∀ e w',
     fetchAndPushToNoviSign env cfg (world s) = (Throw e, w') →
     world (timer_fire env cfg s) =
       log_lines [Stderr [LStr "Auto-update failed:"; LStr (Err.message e)]] w' ∧
     updateInterval (timer_fire env cfg s) = Some UPDATE_INTERVAL_MS) ∧
  (∀ feed items resp,
     cycle_clean env cfg (world s) feed items resp →
     ∃ result,
       fetchAndPushToNoviSign env cfg (world s) =
         (Ok result, world (timer_fire env cfg s)) ∧
       success result = true ∧
       itemsUpdated result = length (Object_keys items) ∧
       response result = Response.data resp ∧
       requests (world (timer_fire env cfg s)) =
         (requests (world s) ++ [feed_request; publish_request cfg items None])%list).
Proof.
  intros s.
  pose proof (timer_stays_armed env cfg n p) as Harmed. fold s in Harmed.
  split; [done|]. split; [apply callback_handled|]. split.
  - intros e w' Hfail. unfold timer_fire. rewrite Harmed. simpl.
    unfold interval_callback, promise_catch. rewrite Hfail. simpl. done.
  - intros feed items resp Hclean.
    destruct (cycle_resolved env cfg (world s) feed items resp Hclean) as [ls Hrun].
    eexists. unfold timer_fire. rewrite Harmed. simpl.
    unfold interval_callback, promise_catch. rewrite Hrun. simpl. done.
Qed.

Lemma cycles_isolated_witness :
  let s := after_fires sample_env sample_config 0 fresh_process in
  requests (world s) = [feed_request] ∧
  requests (world (timer_fire sample_env sample_config s)) =
    [feed_request; feed_request; publish_request sample_config sample_items None].
Proof.
  intros s. split; [reflexivity|].
  destruct (cycles_isolated sample_env sample_config fresh_process 0)
    as (_ & _ & _ & Hnext).
  destruct (Hnext sample_feed sample_items
              {| Response.status := 200; Response.data := PBytes [] |})
    as (result & _ & _ & _ & _ & Hreqs).
  - exists {| Response.status := 200; Response.data := PBytes [] |}.
    repeat split; reflexivity.
  - exact Hreqs.
Defined.

(** ** A complete run on the documented example

    One Queens-bound arrival 125 s ahead, one 3700 s ahead, nothing
    Brooklyn-bound. *)
Example documented_example :
  let stus :=
    [ {| arrival := Some {| time := Some (TNum (1000 + 3700)) |};
         stopId := Some STOP_QUEENS |};
      {| arrival := Some {| time := Some (TNum (1000 + 125)) |};
         stopId := Some STOP_QUEENS |} ] in
  let feed :=
    [ {| tripUpdate := Some {| trip := Some {| routeId := Some ROUTE_ID |};
                               stopTimeUpdate := Some stus |} |} ] in
  fst (formatDataForNoviSign (select_arrivals 1000 feed) empty_world) =
    Ok [ ("queens_1", {| Catalog.minutesAway := "2 min" |});
         ("queens_2", {| Catalog.minutesAway := "62 min" |});
         ("queens_3", {| Catalog.minutesAway := "--" |});
         ("brooklyn_1", {| Catalog.minutesAway := "--" |});
         ("brooklyn_2", {| Catalog.minutesAway := "--" |});
         ("brooklyn_3", {| Catalog.minutesAway := "--" |}) ].
Proof. reflexivity. Qed.

(** * Further properties of the code *)

(** ** The selector's loops in closed form *)

Lemma bucket_for_nonempty stop proj : bucket_for stop proj → stop ≠ "".
Proof. by destruct 1. Qed.

Lemma on_stu_closed now bk stu stop proj :
  bucket_for stop proj →
  proj (on_stop_time_update now bk stu) = (proj bk ++ update_events now stop stu)%list.
Proof.
  intros Hb. unfold update_events.
  destruct (arrival_time stu) as [t|] eqn:Hat;
    [|rewrite on_stu_skipped by (left; by rewrite Hat); by rewrite app_nil_r].
  destruct (stopId stu) as [sid|] eqn:Hsid;
    [|rewrite on_stu_skipped by (right; by rewrite Hsid);
      destruct (truthy_time (Some t)); by rewrite app_nil_r].
  destruct (truthy_time (Some t)) eqn:Ht;
    [|rewrite on_stu_skipped by (left; by rewrite Hat); by rewrite app_nil_r].
  destruct (truthy_string (Some sid)) eqn:Hs.
  - rewrite (on_stu_present now bk stu t sid) by done.
    destruct (minutes_away now (arrival_epoch t) <? 0);
      [rewrite andb_false_r; by rewrite app_nil_r|].
    unfold route_item.
    destruct Hb; simpl;
      destruct (String.eqb sid STOP_QUEENS) eqn:Eq;
      destruct (String.eqb sid STOP_BROOKLYN) eqn:Eb;
      try apply String.eqb_eq in Eq; try apply String.eqb_eq in Eb; subst;
      try discriminate Eb; simpl; by rewrite ?app_nil_r.
  - rewrite on_stu_skipped by (right; by rewrite Hsid).
    simpl in Hs. destruct (String.eqb_spec sid ""); [subst|done].
    by destruct Hb; rewrite app_nil_r.
Qed.

Lemma fold_stu_closed now stus bk stop proj :
  bucket_for stop proj →
  proj (fold_left (on_stop_time_update now) stus bk) =
    (proj bk ++ flat_map (update_events now stop) stus)%list.
Proof.
  intros Hb. revert bk.
  induction stus as [|stu stus IH]; intros bk; simpl; [by rewrite app_nil_r|].
  by rewrite IH, (on_stu_closed now bk stu stop proj Hb), app_assoc.
Qed.

Lemma on_entity_closed now bk e stop proj :
  bucket_for stop proj →
  proj (on_entity now bk e) = (proj bk ++ entity_events now stop e)%list.
Proof.
  intros Hb. unfold on_entity, entity_events.
  destruct (tripUpdate e) as [tu|]; [|by rewrite app_nil_r].
  destruct (trip tu) as [tr|]; [|by rewrite app_nil_r].
  destruct (route_differs tr);
    [destruct (stopTimeUpdate tu); by rewrite app_nil_r|].
  destruct (stopTimeUpdate tu) as [stus|]; [|by rewrite app_nil_r].
  by apply fold_stu_closed.
Qed.

Lemma fold_entity_closed now es bk stop proj :
  bucket_for stop proj →
  proj (fold_left (on_entity now) es bk) = (proj bk ++ feed_events now stop es)%list.
Proof.
  intros Hb. revert bk.
  induction es as [|e es IH]; intros bk; simpl; [by rewrite app_nil_r|].
  by rewrite IH, (on_entity_closed now bk e stop proj Hb), app_assoc.
Qed.

Lemma collect_closed now es stop proj :
  bucket_for stop proj → proj (collect now es) = feed_events now stop es.
Proof.
  intros Hb. unfold collect. rewrite (fold_entity_closed now es _ stop proj Hb).
  by destruct Hb.
Qed.

(** X1: the two nested loops fill each bucket with exactly the events of the
    kept updates of its stop, in feed order (entities in order, and within an
    entity its stop-time updates in order). *)
Theorem buckets_in_feed_order (now : Z) (entities : list FeedEntity) :
  queensArrivals (collect now entities) = feed_events now STOP_QUEENS entities ∧
  brooklynArrivals (collect now entities) = feed_events now STOP_BROOKLYN entities.
Proof. split; apply collect_closed; constructor. Qed.

(** X3: one stop-time update adds at most one event in all, and never one to
    each bucket: the two configured stop identifiers exclude each other. *)
Theorem update_feeds_one_bucket (now : Z) (bk : Buckets) (stu : StopTimeUpdate) :
  let bk' := on_stop_time_update now bk stu in
  (queensArrivals bk' = queensArrivals bk ∨
   brooklynArrivals bk' = brooklynArrivals bk) ∧
  (length (queensArrivals bk') + length (brooklynArrivals bk') ≤
   length (queensArrivals bk) + length (brooklynArrivals bk) + 1)%nat.
Proof.
  simpl.
  rewrite (on_stu_closed now bk stu STOP_QUEENS queensArrivals) by constructor.
  rewrite (on_stu_closed now bk stu STOP_BROOKLYN brooklynArrivals) by constructor.
  unfold update_events.
  destruct (arrival_time stu) as [t|]; [|rewrite !app_nil_r; split; [auto|lia]].
  destruct (stopId stu) as [sid|]; [|rewrite !app_nil_r; split; [auto|lia]].
  destruct (truthy_time (Some t)); simpl; [|rewrite !app_nil_r; split; [auto|lia]].
  destruct (String.eqb sid STOP_QUEENS) eqn:Eq;
    destruct (String.eqb sid STOP_BROOKLYN) eqn:Eb;
    try apply String.eqb_eq in Eq; try apply String.eqb_eq in Eb; subst;
    try discriminate Eb; simpl;
    destruct (minutes_away now (arrival_epoch t) <? 0); simpl;
    rewrite ?app_nil_r, ?length_app; simpl; split; auto; lia.
Qed.

(** ** What the window shows *)

Lemma StronglySorted_app_cross {A : Type} (R : A → A → Prop) (l1 l2 : list A) :
  StronglySorted R (l1 ++ l2) → ∀ x y, x ∈ l1 → y ∈ l2 → R x y.
Proof.
  induction l1 as [|a l1 IH]; simpl; intros Hs x y Hx Hy.
  - by apply elem_of_nil in Hx.
  - apply StronglySorted_inv in Hs as [Hs Ha].
    apply elem_of_cons in Hx as [->|Hx]; [|by apply IH].
    rewrite Forall_forall in Ha. apply Ha.
    apply elem_of_app. by right.
Qed.

Lemma StronglySorted_weaken {A : Type} (R R' : A → A → Prop) (l : list A) :
  (∀ x y, x ∈ l → y ∈ l → R x y → R' x y) →
  StronglySorted R l → StronglySorted R' l.
Proof.
  intros Himp Hs. induction Hs as [|a l Hs IH Ha]; constructor.
  - apply IH. intros x y Hx Hy. apply Himp; by right.
  - rewrite Forall_forall in Ha |- *. intros y Hy.
    apply Himp; [left|by right|by apply Ha].
Qed.

Lemma window_earliest (l : list ArrivalItem) :
  let out := slice_0_3 (Array_sort by_arrivalTime l) in
  length out = (3 `min` length l)%nat ∧
  ∃ rest, (out ++ rest)%list ≡ₚ l ∧ ∀ o r, o ∈ out → r ∈ rest → arrival_le o r.
Proof.
  simpl. unfold slice_0_3.
  assert (Array_sort by_arrivalTime l ≡ₚ l) as Hperm
    by exact (Array_sort_perm (λ it, ToNumber (arrivalTime it)) l).
  assert (StronglySorted arrival_le (Array_sort by_arrivalTime l)) as Hsort
    by exact (Array_sort_sorted (λ it, ToNumber (arrivalTime it)) l).
  split.
  - rewrite length_take. by rewrite (Permutation_length Hperm).
  - exists (drop 3 (Array_sort by_arrivalTime l)).
    rewrite take_drop. split; [done|].
    rewrite <- (take_drop 3 (Array_sort by_arrivalTime l)) in Hsort.
    intros o r Ho Hr.
    exact (StronglySorted_app_cross _ _ _ Hsort o r Ho Hr).
Qed.

(** X2: each direction shows min(3, n) of the n events of its stop, and they
    are the earliest ones: the events left out, together with the events
    shown, make up all the events of the stop, and none left out arrives
    before one that is shown. *)
Theorem shown_are_earliest (now : Z) (entities : list FeedEntity) :
  let earliest (stop : string) (out : list ArrivalItem) :=
    length out = (3 `min` length (feed_events now stop entities))%nat ∧
    ∃ rest, (out ++ rest)%list ≡ₚ feed_events now stop entities ∧
            ∀ o r, o ∈ out → r ∈ rest → arrival_le o r in
  earliest STOP_QUEENS
    (nextThreeTrains (queensBound (select_arrivals now entities))) ∧
  earliest STOP_BROOKLYN
    (nextThreeTrains (brooklynBound (select_arrivals now entities))).
Proof.
  simpl. split.
  - rewrite <- (collect_closed now entities STOP_QUEENS queensArrivals) by constructor.
    apply window_earliest.
  - rewrite <- (collect_closed now entities STOP_BROOKLYN brooklynArrivals)
      by constructor.
    apply window_earliest.
Qed.

Lemma update_events_shape now stop stu it :
  it ∈ update_events now stop stu →
  it = make_item now (arrivalTime it) ∧ 0 ≤ minutes_of now it.
Proof.
  unfold update_events, minutes_of.
  destruct (arrival_time stu) as [t|]; [|intros H; by apply elem_of_nil in H].
  destruct (stopId stu) as [sid|]; [|intros H; by apply elem_of_nil in H].
  destruct (truthy_time (Some t) && String.eqb sid stop); simpl;
    [|intros H; by apply elem_of_nil in H].
  destruct (minutes_away now (arrival_epoch t) <? 0) eqn:E; simpl;
    [intros H; by apply elem_of_nil in H|].
  intros H. apply list_elem_of_singleton in H as ->. simpl.
  apply Z.ltb_ge in E. done.
Qed.

Lemma feed_events_shape now stop es it :
  it ∈ feed_events now stop es →
  it = make_item now (arrivalTime it) ∧ 0 ≤ minutes_of now it.
Proof.
  unfold feed_events. intros H.
  apply list_elem_of_In, in_flat_map in H as (e & _ & H).
  unfold entity_events in H.
  destruct (tripUpdate e) as [tu|]; [|done].
  destruct (trip tu) as [tr|]; [|done].
  destruct (stopTimeUpdate tu) as [stus|]; [|done].
  destruct (route_differs tr); [done|].
  apply in_flat_map in H as (stu & _ & H).
  apply list_elem_of_In in H. by eapply update_events_shape.
Qed.

Lemma minutes_away_mono now a b :
  ToNumber a ≤ ToNumber b → minutes_away now a ≤ minutes_away now b.
Proof.
  intros H. unfold minutes_away, Math_round_div.
  apply Z.div_le_mono; lia.
Qed.

Lemma window_minutes now stop proj es :
  bucket_for stop proj →
  let out := slice_0_3 (Array_sort by_arrivalTime (proj (collect now es))) in
  Forall (λ it, minutesAway it = label (minutes_of now it) ∧ 0 ≤ minutes_of now it) out ∧
  StronglySorted (λ a b, minutes_of now a ≤ minutes_of now b) out.
Proof.
  intros Hb. simpl.
  destruct (selected_window (proj (collect now es))) as (_ & Hsort & Hsub).
  split.
  - rewrite Forall_forall. intros it Hin. apply Hsub in Hin.
    rewrite (collect_closed now es stop proj Hb) in Hin.
    apply feed_events_shape in Hin as [Heq Hm]. split; [|done].
    rewrite Heq at 1. reflexivity.
  - eapply StronglySorted_weaken; [|exact Hsort].
    intros a b _ _ Hab. by apply minutes_away_mono.
Qed.

(** X4: in each direction of the selector's output the label of every event
    is the label of the minutes recomputed from its arrival time, those
    minutes are not negative, and they never decrease along the list: the
    display cannot show a later train above an earlier one. *)
Theorem displayed_minutes_ordered (now : Z) (entities : list FeedEntity) :
  let ordered (out : list ArrivalItem) :=
    Forall (λ it, minutesAway it = label (minutes_of now it) ∧
                  0 ≤ minutes_of now it) out ∧
    StronglySorted (λ a b, minutes_of now a ≤ minutes_of now b) out in
  ordered (nextThreeTrains (queensBound (select_arrivals now entities))) ∧
  ordered (nextThreeTrains (brooklynBound (select_arrivals now entities))).
Proof.
  simpl. split.
  - apply (window_minutes now STOP_QUEENS queensArrivals). constructor.
  - apply (window_minutes now STOP_BROOKLYN brooklynArrivals). constructor.
Qed.

Lemma min_label_not_arriving (s : string) : s +:+ " min" ≠ "Arriving".
Proof.
  intros H.
  destruct s as [|c1 [|c2 [|c3 [|c4 [|c5 s]]]]]; simpl in H; simplify_eq.
  destruct s as [|d1 [|d2 [|d3 [|d4 s]]]]; simpl in *; simplify_eq.
Qed.

Lemma label_arriving_iff m : label m = "Arriving" ↔ m ≤ 0.
Proof.
  unfold label. destruct (m <=? 0) eqn:E.
  - apply Z.leb_le in E. done.
  - apply Z.leb_gt in E. split; [|lia].
    intros H. by apply min_label_not_arriving in H.
Qed.

Lemma window_arriving now stop proj es it :
  bucket_for stop proj →
  it ∈ slice_0_3 (Array_sort by_arrivalTime (proj (collect now es))) →
  -30 ≤ ToNumber (arrivalTime it) - now ∧
  (minutesAway it = "Arriving" ↔ ToNumber (arrivalTime it) - now < 30).
Proof.
  intros Hb Hin.
  destruct (window_minutes now stop proj es Hb) as [Hall _].
  rewrite Forall_forall in Hall. destruct (Hall it Hin) as [Hlbl Hm].
  unfold minutes_of in *.
  pose proof (minutes_negative_iff now (arrivalTime it)) as Hneg.
  split; [lia|].
  rewrite Hlbl, label_arriving_iff.
  pose proof (minutes_bounds now (arrivalTime it) 0) as H0.
  split; intros H.
  - assert (minutes_away now (arrivalTime it) = 0) as Hz by lia.
    apply H0 in Hz. lia.
  - assert (minutes_away now (arrivalTime it) = 0) as ->; [apply H0; lia|lia].
Qed.

(** X5: no event shown is more than 30 seconds in the past, and an event
    shown is labelled "Arriving" exactly when its arrival is less than 30
    seconds ahead of the reference time. *)
Theorem arriving_window (now : Z) (entities : list FeedEntity) (it : ArrivalItem) :
  it ∈ nextThreeTrains (queensBound (select_arrivals now entities)) ∨
  it ∈ nextThreeTrains (brooklynBound (select_arrivals now entities)) →
  -30 ≤ ToNumber (arrivalTime it) - now ∧
  (minutesAway it = "Arriving" ↔ ToNumber (arrivalTime it) - now < 30).
Proof.
  intros [Hin|Hin]; simpl in Hin.
  - by apply (window_arriving now STOP_QUEENS queensArrivals entities); [constructor|].
  - by apply (window_arriving now STOP_BROOKLYN brooklynArrivals entities);
      [constructor|].
Qed.

Lemma arriving_window_witness :
  let feed :=
    [ {| tripUpdate := Some
           {| trip := Some {| routeId := Some ROUTE_ID |};
              stopTimeUpdate := Some
                [ {| arrival := Some {| time := Some (TNum 1029) |};
                     stopId := Some STOP_QUEENS |} ] |} |} ] in
  let it := {| minutesAway := "Arriving"; arrivalTime := TNum 1029 |} in
  -30 ≤ ToNumber (arrivalTime it) - 1000 ∧
  (minutesAway it = "Arriving" ↔ ToNumber (arrivalTime it) - 1000 < 30).
Proof.
  intros feed it.
  apply (arriving_window 1000 feed it).
  left. vm_compute. left.
Defined.

(** ** The formatter in closed form *)

Lemma obj_set_fresh {V : Type} (k : string) (v : V) (o : JsObject V) :
  k ∉ Object_keys o → obj_set k v o = (o ++ [(k, v)])%list.
Proof.
  induction o as [|[k' v'] o IH]; simpl; intros Hk; [done|].
  apply not_elem_of_cons in Hk as [Hne Hk].
  destruct (String.eqb_spec k' k); [congruence|].
  by rewrite IH.
Qed.

Lemma Object_keys_app {V : Type} (o1 o2 : JsObject V) :
  Object_keys (o1 ++ o2)%list = (Object_keys o1 ++ Object_keys o2)%list.
Proof. apply map_app. Qed.

Section SetLoops.

Context {A V : Type} (key : nat → string) (val : A → V).
Hypothesis key_inj : ∀ i j, key i = key j → i = j.

Lemma forEach_sets (f : JsObject V → A → nat → M (JsObject V)) l :
  (∀ s x i, writes_only (f s x i) (obj_set (key i) (val x) s)) →
  ∀ index s,
    (∀ j, (index ≤ j)%nat → key j ∉ Object_keys s) →
    writes_only (forEach_from f l index s)
      (s ++ imap (λ i x, (key (index + i)%nat, val x)) l)%list.
Proof.
  intros Hf. induction l as [|x l IH]; intros index s Hfresh; simpl.
  - rewrite app_nil_r. apply writes_only_ret.
  - eapply writes_only_bind; [apply Hf|].
    rewrite obj_set_fresh by (apply Hfresh; lia).
    replace (s ++ (key (index + 0)%nat, val x)
               :: imap ((λ i x0, (key (index + i)%nat, val x0)) ∘ S) l)%list
      with ((s ++ [(key index, val x)]) ++
            imap (λ i x0, (key (S index + i)%nat, val x0)) l)%list.
    + apply IH. intros j Hj. rewrite Object_keys_app. simpl.
      rewrite elem_of_app, list_elem_of_singleton.
      intros [Hin|Heq]; [by apply (Hfresh j); [lia|]|].
      apply key_inj in Heq. lia.
    + rewrite <- app_assoc. simpl. rewrite Nat.add_0_r. do 2 f_equal.
      apply imap_ext. intros i y _. simpl. do 2 f_equal. lia.
Qed.

Lemma for_steps_sets (v : V) (f : JsObject V → nat → M (JsObject V)) steps :
  (∀ s i, writes_only (f s i) (obj_set (key i) v s)) →
  ∀ index s,
    (∀ j, (index ≤ j)%nat → key j ∉ Object_keys s) →
    writes_only (for_steps f index steps s)
      (s ++ map (λ i, (key i, v)) (seq index steps))%list.
Proof.
  intros Hf. induction steps as [|steps IH]; intros index s Hfresh; simpl.
  - rewrite app_nil_r. apply writes_only_ret.
  - eapply writes_only_bind; [apply Hf|].
    rewrite obj_set_fresh by (apply Hfresh; lia).
    replace (s ++ (key index, v) :: map (λ i, (key i, v)) (seq (S index) steps))%list
      with ((s ++ [(key index, v)]) ++
            map (λ i, (key i, v)) (seq (S index) steps))%list
      by (by rewrite <- app_assoc).
    apply IH. intros j Hj. rewrite Object_keys_app. simpl.
    rewrite elem_of_app, list_elem_of_singleton.
    intros [Hin|Heq]; [by apply (Hfresh j); [lia|]|].
    apply key_inj in Heq. lia.
Qed.

End SetLoops.

Lemma string_app_cancel (p a b : string) : p +:+ a = p +:+ b → a = b.
Proof.
  induction p as [|c p IH]; simpl; [done|].
  intros H. apply IH. by simplify_eq.
Qed.

Lemma item_id_inj prefix i j : item_id prefix i = item_id prefix j → i = j.
Proof.
  unfold item_id, template_nat. intros H.
  apply string_app_cancel, pretty_nat_inj in H. lia.
Qed.

Lemma item_id_prefixes i j : item_id "brooklyn_" i ≠ item_id "queens_" j.
Proof. unfold item_id. simpl. discriminate. Qed.

Lemma direction_slots_keys prefix trains :
  Object_keys (direction_slots prefix trains) =
    map (item_id prefix) (seq 0 (3 `max` length trains)).
Proof.
  unfold direction_slots, Object_keys.
  rewrite map_app, map_map. simpl.
  replace (3 `max` length trains)%nat
    with (length trains + (3 - length trains))%nat by lia.
  rewrite seq_app, map_app. simpl. f_equal.
  clear. generalize (item_id prefix) as key. intros key.
  induction trains as [|x l IH] using rev_ind; [done|].
  rewrite length_app. simpl. rewrite seq_app, map_app, imap_app, map_app. simpl.
  rewrite IH. by rewrite Nat.add_0_r.
Qed.

Ltac log_then_ret' :=
  intros; eapply writes_only_bind;
  [apply writes_only_log | apply writes_only_ret].

Lemma keys_of_imap {A V : Type} (key : nat → string) (val : A → V) index l k :
  k ∈ Object_keys (imap (λ i x, (key (index + i)%nat, val x)) l) →
  ∃ i, (i < length l)%nat ∧ k = key (index + i)%nat.
Proof.
  unfold Object_keys. intros H.
  apply list_elem_of_In, in_map_iff in H as ([k' v] & <- & H).
  apply list_elem_of_In, elem_of_lookup_imap in H as (i & y & Heq & Hi).
  exists i. split; [by eapply lookup_lt_Some|]. by simplify_eq.
Qed.

Lemma keys_of_map {V : Type} (key : nat → string) (v : V) (l : list nat) k :
  k ∈ Object_keys (map (λ i, (key i, v)) l) → ∃ i, i ∈ l ∧ k = key i.
Proof.
  unfold Object_keys. intros H.
  apply list_elem_of_In, in_map_iff in H as ([k' v'] & <- & H).
  apply in_map_iff in H as (i & Heq & Hi).
  exists i. split; [by apply list_elem_of_In|]. by simplify_eq.
Qed.

Lemma keys_of_direction prefix trains k :
  k ∈ Object_keys (direction_slots prefix trains) → ∃ i, k = item_id prefix i.
Proof.
  rewrite direction_slots_keys. intros H.
  apply list_elem_of_In, in_map_iff in H as (i & <- & _). by exists i.
Qed.

Lemma writes_only_eq {A : Type} (m : M A) (a b : A) :
  a = b → writes_only m a → writes_only m b.
Proof. by intros ->. Qed.

(** The formatter returns the slots of the Queens-bound direction followed
    by those of the Brooklyn-bound direction. *)
Lemma format_closed td : writes_only (formatDataForNoviSign td) (formatted td).
Proof.
  destruct td as [[q] [b]].
  unfold formatDataForNoviSign, forEach_indexed, for_range, formatted. simpl.
  eapply writes_only_bind; [apply writes_only_log|].
  eapply writes_only_bind.
  { apply (forEach_sets (item_id "queens_")
             (λ t, {| Catalog.minutesAway := minutesAway t |})
             (item_id_inj "queens_")); [log_then_ret'|].
    intros j _ H. by apply elem_of_nil in H. }
  eapply writes_only_bind.
  { apply (for_steps_sets (item_id "queens_") (item_id_inj "queens_")
             {| Catalog.minutesAway := "--" |}); [log_then_ret'|].
    intros j Hj H.
    apply (keys_of_imap (item_id "queens_") _ 0) in H as (i & Hi & Heq).
    apply item_id_inj in Heq. lia. }
  eapply writes_only_bind.
  { apply (forEach_sets (item_id "brooklyn_")
             (λ t, {| Catalog.minutesAway := minutesAway t |})
             (item_id_inj "brooklyn_")); [log_then_ret'|].
    intros j _ H.
    change (item_id "brooklyn_" j ∈ Object_keys (direction_slots "queens_" q)) in H.
    apply keys_of_direction in H as [i Heq].
    by apply item_id_prefixes in Heq. }
  eapply writes_only_bind.
  { apply (for_steps_sets (item_id "brooklyn_") (item_id_inj "brooklyn_")
             {| Catalog.minutesAway := "--" |}); [log_then_ret'|].
    intros j Hj H. rewrite Object_keys_app, elem_of_app in H.
    destruct H as [H|H].
    - change (item_id "brooklyn_" j ∈ Object_keys (direction_slots "queens_" q)) in H.
      apply keys_of_direction in H as [i Heq].
      by apply item_id_prefixes in Heq.
    - apply (keys_of_imap (item_id "brooklyn_") _ 0) in H as (i & Hi & Heq).
      apply item_id_inj in Heq. lia. }
  eapply writes_only_eq; [|apply writes_only_ret].
  unfold direction_slots. simpl. by rewrite <- app_assoc.
Qed.

Lemma slot_in_direction prefix trains i :
  (i < 3 `max` length trains)%nat →
  (item_id prefix i, slot_value trains i) ∈ direction_slots prefix trains.
Proof.
  intros Hi. unfold direction_slots, slot_value. apply elem_of_app.
  destruct (trains !! i) as [train|] eqn:Hl.
  - left.
    apply (elem_of_lookup_imap_2
             (λ i train, (item_id prefix i,
                          {| Catalog.minutesAway := minutesAway train |}))
             trains train i Hl).
  - right. apply lookup_ge_None in Hl.
    apply list_elem_of_In, in_map_iff. exists i. split; [done|].
    apply in_seq. lia.
Qed.

Lemma formatted_keys td :
  Object_keys (formatted td) =
    (map (item_id "queens_")
         (seq 0 (3 `max` length (nextThreeTrains (queensBound td)))) ++
     map (item_id "brooklyn_")
         (seq 0 (3 `max` length (nextThreeTrains (brooklynBound td)))))%list.
Proof.
  unfold formatted. by rewrite Object_keys_app, !direction_slots_keys.
Qed.

Lemma formatted_keys_NoDup td : NoDup (Object_keys (formatted td)).
Proof.
  rewrite formatted_keys. apply NoDup_app. split; [|split].
  - apply (NoDup_fmap_2_strong (item_id "queens_")); [|apply NoDup_seq].
    intros x y _ _. apply item_id_inj.
  - intros k Hq Hb.
    apply list_elem_of_In, in_map_iff in Hq as (i & <- & _).
    apply list_elem_of_In, in_map_iff in Hb as (j & Heq & _).
    by apply item_id_prefixes in Heq.
  - apply (NoDup_fmap_2_strong (item_id "brooklyn_")); [|apply NoDup_seq].
    intros x y _ _. apply item_id_inj.
Qed.

(** X7: for directions of any length the formatter returns, in this order,
    one entry per Queens-bound event numbered from 1, placeholders up to
    queens_3, then the same for Brooklyn.  Nothing is truncated (a direction
    of n > 3 events gets n entries), no identifier is repeated, and slot i
    reads back as the i-th event's minutesAway or as "--". *)
Theorem format_any_length (td : TrainData) (w : World) :
  let q := nextThreeTrains (queensBound td) in
  let b := nextThreeTrains (brooklynBound td) in
  fst (formatDataForNoviSign td w) = Ok (formatted td) ∧
  Object_keys (formatted td) =
    (map (item_id "queens_") (seq 0 (3 `max` length q)) ++
     map (item_id "brooklyn_") (seq 0 (3 `max` length b)))%list ∧
  NoDup (Object_keys (formatted td)) ∧
  (∀ i, (i < 3 `max` length q)%nat →
     as_map (formatted td) !! item_id "queens_" i = Some (slot_value q i)) ∧
  (∀ i, (i < 3 `max` length b)%nat →
     as_map (formatted td) !! item_id "brooklyn_" i = Some (slot_value b i)).
Proof.
  intros q b.
  split; [by destruct (format_closed td w) as [ls ->]|].
  split; [apply formatted_keys|].
  split; [apply formatted_keys_NoDup|].
  split; intros i Hi; unfold as_map;
    (apply elem_of_list_to_map_1; [apply formatted_keys_NoDup|]);
    unfold formatted; apply elem_of_app; [left|right];
    by apply slot_in_direction.
Qed.

Lemma format_any_length_witness :
  let four :=
    [ {| minutesAway := "1 min"; arrivalTime := TNum 60 |};
      {| minutesAway := "2 min"; arrivalTime := TNum 120 |};
      {| minutesAway := "3 min"; arrivalTime := TNum 180 |};
      {| minutesAway := "4 min"; arrivalTime := TNum 240 |} ] in
  let td := {| queensBound := {| nextThreeTrains := four |};
               brooklynBound := {| nextThreeTrains := [] |} |} in
  as_map (formatted td) !! "queens_4" = Some {| Catalog.minutesAway := "4 min" |} ∧
  as_map (formatted td) !! "brooklyn_3" = Some {| Catalog.minutesAway := "--" |}.
Proof.
  intros four td.
  destruct (format_any_length td empty_world) as (_ & _ & _ & Hq & Hb).
  split.
  - apply (Hq 3%nat). simpl. lia.
  - apply (Hb 2%nat). simpl. lia.
Defined.

Lemma pipeline_keys now es :
  Object_keys (formatted (select_arrivals now es)) = catalog_keys.
Proof.
  rewrite formatted_keys.
  destruct (selected_window (queensArrivals (collect now es))) as (Hq & _).
  destruct (selected_window (brooklynArrivals (collect now es))) as (Hb & _).
  simpl in *.
  replace (3 `max` length (slice_0_3 (Array_sort by_arrivalTime
             (queensArrivals (collect now es)))))%nat with 3%nat by lia.
  replace (3 `max` length (slice_0_3 (Array_sort by_arrivalTime
             (brooklynArrivals (collect now es)))))%nat with 3%nat by lia.
  reflexivity.
Qed.

(** X8: whatever the feed and the reference time, formatting what the
    selector returns gives exactly the six catalog identifiers, in the order
    queens_1..3, brooklyn_1..3, and slot i of a direction reads back as the
    i-th earliest event of that direction or as "--". *)
Theorem select_then_format (now : Z) (entities : list FeedEntity) (w : World) :
  let td := select_arrivals now entities in
  ∃ items,
    fst (formatDataForNoviSign td w) = Ok items ∧
    Object_keys items = catalog_keys ∧
    ∀ i, (i < 3)%nat →
      as_map items !! item_id "queens_" i =
        Some (slot_value (nextThreeTrains (queensBound td)) i) ∧
      as_map items !! item_id "brooklyn_" i =
        Some (slot_value (nextThreeTrains (brooklynBound td)) i).
Proof.
  intros td. exists (formatted td).
  split; [by destruct (format_closed td w) as [ls ->]|].
  split; [apply pipeline_keys|].
  intros i Hi. unfold as_map.
  split; (apply elem_of_list_to_map_1; [apply formatted_keys_NoDup|]);
    unfold formatted; apply elem_of_app; [left|right];
    apply slot_in_direction; lia.
Qed.

Lemma select_then_format_witness :
  ∃ items,
    fst (formatDataForNoviSign (select_arrivals 1000 (entity sample_feed)) empty_world)
      = Ok items ∧
    as_map items !! "queens_1" = Some {| Catalog.minutesAway := "2 min" |} ∧
    as_map items !! "brooklyn_1" = Some {| Catalog.minutesAway := "62 min" |}.
Proof.
  destruct (select_then_format 1000 (entity sample_feed) empty_world)
    as (items & Hrun & _ & Hs).
  exists items. split; [exact Hrun|].
  destruct (Hs 0%nat ltac:(lia)) as [Hq Hb]. split; [exact Hq|exact Hb].
Defined.

(** ** Failures in the feed fetch and in the cycle *)

(** X6: a feed fetch sends exactly one GET and writes nothing to the console.
    When the request is rejected or its body does not decode, it throws a new
    error "Failed to fetch MTA data: <message of the cause>", which carries no
    response, and the clock is not read; otherwise the clock is read once and
    the selection at floor(ms / 1000) is returned. *)
Theorem fetch_outcome (env : Env) (w : World) :
  let run := fetchFTrainArrivals env w in
  console (snd run) = console w ∧
  requests (snd run) = (requests w ++ [feed_request])%list ∧
  match network env (length (requests w)) feed_request with
  | Rejected e =>
      fst run = Throw (fetch_failure e) ∧ clock_reads (snd run) = clock_reads w
  | Resolved body =>
      match FeedMessage_decode env (Uint8Array_of (Response.data body)) with
      | Throw e =>
          fst run = Throw (fetch_failure e) ∧ clock_reads (snd run) = clock_reads w
      | Ok feed =>
          fst run = Ok (select_arrivals (clock_ms env (clock_reads w) `div` 1000)
                          (entity feed)) ∧
          clock_reads (snd run) = S (clock_reads w)
      end
  end.
Proof.
  simpl.
  unfold fetchFTrainArrivals, try_catch, bind, axios_request, decode, Date_now,
    ret, throw.
  fold feed_request.
  destruct (network env (length (requests w)) feed_request) as [body|e]; simpl;
    [|done].
  destruct (FeedMessage_decode env (Uint8Array_of (Response.data body)))
    as [feed|e]; simpl; done.
Qed.

Lemma fetch_failed env w e :
  fetch_fails env w e →
  throws_to (fetchFTrainArrivals env) w (fetch_failure e) [feed_request] 0.
Proof.
  intros Hfail. exists [].
  unfold fetchFTrainArrivals, try_catch, bind, axios_request, decode, Date_now,
    ret, throw.
  fold feed_request.
  destruct Hfail as [Hnet|(body & Hnet & Hdec)]; rewrite Hnet; simpl.
  - unfold advance. simpl. by rewrite app_nil_r.
  - rewrite Hdec. simpl. unfold advance. simpl. by rewrite app_nil_r.
Qed.

Lemma throws_bind_l {A B : Type} (m : M A) (f : A → M B) w e r k :
  throws_to m w e r k → throws_to (bind m f) w e r k.
Proof. intros [ls H]. exists ls. unfold bind. by rewrite H. Qed.

Lemma throws_bind_r {A B : Type} (m : M A) (f : A → M B) w a e r1 k1 r2 k2 :
  steps_to m w a r1 k1 →
  (∀ w', requests w' = (requests w ++ r1)%list →
         clock_reads w' = (k1 + clock_reads w)%nat →
         throws_to (f a) w' e r2 k2) →
  throws_to (bind m f) w e (r1 ++ r2) (k1 + k2).
Proof.
  intros [ls1 H1] Hf.
  destruct (Hf (advance ls1 r1 k1 w) eq_refl eq_refl) as [ls2 H2].
  exists (ls1 ++ ls2)%list. unfold bind. by rewrite H1, H2, advance_advance.
Qed.

Lemma throws_quiet {A B : Type} (m : M A) (f : A → M B) w a e r k :
  writes_only m a →
  (∀ w', requests w' = requests w → clock_reads w' = clock_reads w →
         throws_to (f a) w' e r k) →
  throws_to (bind m f) w e r k.
Proof.
  intros Hm Hf.
  apply (throws_bind_r m f w a e [] 0 r k).
  - destruct (Hm w) as [ls H]. exists ls. rewrite H.
    unfold log_lines, advance. simpl. by rewrite app_nil_r.
  - intros w' Hr Hc. apply Hf; [by rewrite Hr, app_nil_r|done].
Qed.

(** A handler that logs and throws the error it caught. *)
Lemma throws_rethrow {A : Type} (body : M A) (args : Err.t → list LogArg) w e r k :
  throws_to body w e r k →
  throws_to (try_catch body
               (λ error, let! _ := console_error (args error) in throw error))
            w e r k.
Proof.
  intros [ls H]. exists (ls ++ [Stderr (args e)])%list.
  unfold try_catch. rewrite H.
  unfold bind, console_error, write_line, throw, advance. simpl.
  by rewrite !app_assoc.
Qed.

Ltac quiet_throw :=
  apply throws_quiet with (a := tt); [apply writes_only_log | intros ?w ?Hr ?Hc].

Lemma cycle_fetch_failed env cfg w e :
  fetch_fails env w e →
  throws_to (fetchAndPushToNoviSign env cfg) w (fetch_failure e) [feed_request] 0.
Proof.
  intros Hfail. unfold fetchAndPushToNoviSign.
  apply throws_rethrow.
  do 3 quiet_throw.
  apply throws_bind_l. apply fetch_failed.
  unfold fetch_fails in *.
  replace (requests w2) with (requests w) by congruence. exact Hfail.
Qed.

Lemma cycle_publish_outcome env cfg w feed :
  fetch_succeeds env w feed →
  let req := publish_request cfg (cycle_items env w feed) None in
  match network env (S (length (requests w))) req with
  | Resolved resp =>
      steps_to (fetchAndPushToNoviSign env cfg) w
        {| success := true;
           itemsUpdated := 6;
           timestamp := toISOString env (clock_ms env (S (clock_reads w)));
           response := Response.data resp |}
        [feed_request; req] 2
  | Rejected e =>
      throws_to (fetchAndPushToNoviSign env cfg) w (new_Error (publish_failure e))
        [feed_request; req] 1
  end.
Proof.
  intros (body & Hnet & Hdec) req.
  pose proof (format_closed
    (select_arrivals (clock_ms env (clock_reads w) `div` 1000) (entity feed))) as Hfmt.
  fold (cycle_items env w feed) in Hfmt.
  destruct (network env (S (length (requests w))) req) as [resp|e] eqn:Hpost.
  - replace 6%nat with (length (Object_keys (cycle_items env w feed)))
      by (unfold cycle_items; by rewrite pipeline_keys).
    apply (cycle_resolved env cfg w feed (cycle_items env w feed) resp).
    exists body. repeat split; try done.
    by destruct (Hfmt empty_world) as [ls ->].
  - unfold fetchAndPushToNoviSign. apply throws_rethrow.
    do 3 quiet_throw.
    apply (throws_bind_r _ _ _
             (select_arrivals (clock_ms env (clock_reads w) `div` 1000) (entity feed))
             _ [feed_request] 1 [req] 0).
    { replace (requests w) with (requests w2) in Hnet by congruence.
      replace (clock_reads w) with (clock_reads w2) by congruence.
      by apply (fetch_resolved env _ body feed). }
    intros w3 Hr3 Hc3.
    do 2 quiet_throw.
    apply throws_quiet with (a := cycle_items env w feed); [exact Hfmt|].
    intros w6 Hr6 Hc6.
    quiet_throw.
    apply throws_bind_l.
    destruct (push_rejected env cfg (cycle_items env w feed) None w7 e) as [ls H].
    + replace (requests w7) with (requests w ++ [feed_request])%list by congruence.
      by rewrite length_app, Nat.add_1_r.
    + exists ls. exact H.
Qed.

(** X9: when the feed fetch of a cycle fails, the cycle throws the fetch
    error and stops there: the feed request is the only request sent, nothing
    is published, and the clock is not read. *)
Theorem cycle_stops_at_fetch_failure (env : Env) (cfg : Config) (w : World)
    (e : Err.t) :
  fetch_fails env w e →
  let run := fetchAndPushToNoviSign env cfg w in
  fst run = Throw (fetch_failure e) ∧
  requests (snd run) = (requests w ++ [feed_request])%list ∧
  clock_reads (snd run) = clock_reads w.
Proof.
  intros Hfail. simpl.
  destruct (cycle_fetch_failed env cfg w e Hfail) as [ls ->]. done.
Qed.

Lemma cycle_stops_at_fetch_failure_witness :
  let run := fetchAndPushToNoviSign sample_env sample_config empty_world in
  fst run = Throw (new_Error "Failed to fetch MTA data: timeout of 10000ms exceeded") ∧
  requests (snd run) = [feed_request] ∧
  clock_reads (snd run) = 0%nat.
Proof.
  apply (cycle_stops_at_fetch_failure sample_env sample_config empty_world
           {| Err.message := "timeout of 10000ms exceeded"; Err.response := None |}).
  left. reflexivity.
Defined.

(** X10: once the feed fetch of a cycle has succeeded, the cycle sends
    exactly one publish request, carrying the six formatted items of the
    selection.  If it is resolved the cycle returns a success with
    [itemsUpdated = 6]; if it is rejected the cycle throws the publisher's
    error as it is. *)
Theorem cycle_after_fetch (env : Env) (cfg : Config) (w : World)
    (feed : FeedMessage) :
  fetch_succeeds env w feed →
  let req := publish_request cfg (cycle_items env w feed) None in
  let run := fetchAndPushToNoviSign env cfg w in
  Object_keys (cycle_items env w feed) = catalog_keys ∧
  requests (snd run) = (requests w ++ [feed_request; req])%list ∧
  match network env (S (length (requests w))) req with
  | Resolved resp =>
      fst run = Ok {| success := true;
                      itemsUpdated := 6;
                      timestamp := toISOString env (clock_ms env (S (clock_reads w)));
                      response := Response.data resp |}
  | Rejected e => fst run = Throw (new_Error (publish_failure e))
  end.
Proof.
  intros Hfetch req run. subst run.
  split; [apply pipeline_keys|].
  pose proof (cycle_publish_outcome env cfg w feed Hfetch) as H. simpl in H.
  fold req in H.
  destruct (network env (S (length (requests w))) req) as [resp|e];
    destruct H as [ls ->]; done.
Qed.

Lemma cycle_after_fetch_witness :
  let w := {| console := []; requests := [feed_request]; clock_reads := 0 |} in
  let run := fetchAndPushToNoviSign sample_env sample_config w in
  requests (snd run) =
    [feed_request; feed_request; publish_request sample_config sample_items None] ∧
  fst run = Ok {| success := true;
                  itemsUpdated := 6;
                  timestamp := "1970-01-01T00:16:40.000Z";
                  response := PBytes [] |}.
Proof.
  intros w.
  destruct (cycle_after_fetch sample_env sample_config w sample_feed)
    as (_ & Hreqs & Hres).
  - exists {| Response.status := 200; Response.data := PBytes [] |}.
    split; reflexivity.
  - split; [exact Hreqs|exact Hres].
Defined.

(** ** How many requests the scheduler sends *)

Lemma cycle_requests env cfg w :
  ∃ reqs,
    requests (snd (fetchAndPushToNoviSign env cfg w)) = (requests w ++ reqs)%list ∧
    (1 ≤ length reqs ≤ 2)%nat.
Proof.
  destruct (network env (length (requests w)) feed_request) as [body|e] eqn:Hnet.
  - destruct (FeedMessage_decode env (Uint8Array_of (Response.data body)))
      as [feed|e] eqn:Hdec.
    + assert (fetch_succeeds env w feed) as Hok by (by exists body).
      pose proof (cycle_publish_outcome env cfg w feed Hok) as H. simpl in H.
      eexists [feed_request; _].
      destruct (network env (S (length (requests w))) _) as [resp|e];
        destruct H as [ls ->]; simpl; split; [done|lia|done|lia].
    + exists [feed_request].
      destruct (cycle_fetch_failed env cfg w e) as [ls ->]; [|simpl; split; [done|lia]].
      right. by exists body.
  - exists [feed_request].
    destruct (cycle_fetch_failed env cfg w e) as [ls ->]; [|simpl; split; [done|lia]].
    by left.
Qed.

Lemma caught_requests {A : Type} (m : M A) (args : Err.t → list LogArg) w :
  requests (snd (promise_catch m (λ err, console_error (args err)) w)) =
  requests (snd (m w)).
Proof.
  unfold promise_catch. by destruct (m w) as [[a|e] w'].
Qed.

Lemma callback_requests env cfg w :
  ∃ reqs,
    requests (snd (interval_callback env cfg w)) = (requests w ++ reqs)%list ∧
    (1 ≤ length reqs ≤ 2)%nat.
Proof.
  unfold interval_callback.
  rewrite (caught_requests _ (λ err, [LStr "Auto-update failed:"; LStr (Err.message err)])).
  apply cycle_requests.
Qed.

Lemma AutoUpdater_requests env cfg p :
  ∃ reqs,
    requests (world (AutoUpdater env cfg p)) = (requests (world p) ++ reqs)%list ∧
    (1 ≤ length reqs ≤ 2)%nat.
Proof.
  assert (requests (world (AutoUpdater env cfg p)) =
          requests (snd (initial_update env cfg (world p)))) as ->.
  { unfold AutoUpdater. by destruct (initial_update env cfg (world p)) as [[r|e] w']. }
  unfold initial_update, bind, console_log, write_line. simpl.
  rewrite (caught_requests _
             (λ err, [LStr "Initial update failed:"; LStr (Err.message err)])).
  match goal with
  | |- context [fetchAndPushToNoviSign env cfg ?w0] =>
      destruct (cycle_requests env cfg w0) as (reqs & Hr & Hlen)
  end.
  exists reqs. by rewrite Hr.
Qed.

(** X11: every cycle sends one or two requests, so after the start-up cycle
    and [n] firings of the timer the process has sent between n + 1 and
    2 (n + 1) requests, and the requests sent before are still the beginning
    of the record. *)
Theorem requests_per_cycle (env : Env) (cfg : Config) (p : Process) (n : nat) :
  ∃ reqs,
    requests (world (after_fires env cfg n p)) = (requests (world p) ++ reqs)%list ∧
    (n + 1 ≤ length reqs ≤ 2 * (n + 1))%nat.
Proof.
  induction n as [|n (reqs & Hr & Hlen)]; simpl.
  - destruct (AutoUpdater_requests env cfg p) as (reqs & Hr & Hlen).
    exists reqs. split; [done|lia].
  - unfold timer_fire. rewrite (timer_stays_armed env cfg n p). simpl.
    destruct (callback_requests env cfg (world (after_fires env cfg n p)))
      as (reqs' & Hr' & Hlen').
    exists (reqs ++ reqs')%list. rewrite Hr', Hr, app_assoc, length_app.
    split; [done|lia].
Qed.

(** ** The manual trigger *)

Lemma write_line_advance l w : write_line l w = (Ok tt, advance [l] [] 0 w).
Proof. unfold write_line, advance. simpl. by rewrite app_nil_r. Qed.

(** X12: the [/example] route never throws.  It sends exactly one publish
    request, carrying the six example items to the group "mta-f-train"
    whatever group is configured.  If the request is resolved it answers 200
    with the publish result ([itemsUpdated = 6]) and reports the address it
    really posted to; if it is rejected it answers 500 with the publisher's
    error message and the example items. *)
Theorem example_route_outcome (env : Env) (cfg : Config) (w : World) :
  let req := publish_request cfg exampleData (Some "mta-f-train") in
  let run := example_route env cfg w in
  request_url req = "https://" +:+ studioDomain cfg +:+ "/catalog/items/mta-f-train" ∧
  requests (snd run) = (requests w ++ [req])%list ∧
  match network env (length (requests w)) req with
  | Resolved resp =>
      ∃ b,
        fst run = Ok {| reply_status := 200; reply_json := PushedBody b |} ∧
        ExampleReply.apiUrl b = request_url req ∧
        ExampleReply.body b = {| data := exampleData |} ∧
        success (ExampleReply.result b) = true ∧
        itemsUpdated (ExampleReply.result b) = 6%nat ∧
        response (ExampleReply.result b) = Response.data resp
  | Rejected e =>
      fst run = Ok {| reply_status := 500;
                      reply_json := FailedBody
                        {| ExampleReply.error := "Failed to push example data to NoviSign";
                           ExampleReply.message := publish_failure e;
                           ExampleReply.exampleDataStructure := exampleData |} |}
  end.
Proof.
  intros req run. subst run. split; [reflexivity|].
  unfold example_route, try_catch, bind, console_log.
  rewrite write_line_advance.
  destruct (network env (length (requests w)) req) as [resp|e] eqn:Hnet.
  - destruct (push_resolved env cfg exampleData (Some "mta-f-train")
                (advance [Stdout [LStr (newline +:+ "📤 Pushing example data to NoviSign...")]]
                   [] 0 w) resp) as [ls ->].
    { simpl. by rewrite app_nil_r. }
    simpl. rewrite app_nil_r. split; [done|].
    eexists. split; [reflexivity|]. done.
  - destruct (push_rejected env cfg exampleData (Some "mta-f-train")
                (advance [Stdout [LStr (newline +:+ "📤 Pushing example data to NoviSign...")]]
                   [] 0 w) e) as [ls ->].
    { simpl. by rewrite app_nil_r. }
    simpl. rewrite app_nil_r. done.
Qed.
